(** * TreeStore: a shallow embedding of [src/utils/TreeStore.ts]

    The store keeps two JavaScript [Map]s:
    - [items]       : identifier -> record (the primary index),
    - [childrenMap] : parent identifier -> array of child records.

    A JS [Map] is modelled as an association list in insertion order:
    [Map.set] on an existing key replaces the value in place, on a new key
    appends at the end; [Map.delete] removes the key.  Records are values:
    the store never mutates a record itself, so a record pushed into a child
    array keeps the contents it had when pushed.

    The two [while] loops of the class ([getAllChildren] and
    [getAllParents]) carry no revisit guard and need not terminate; they are
    run with an explicit [fuel] bound, and [None] / [OutOfFuel] stands for
    "the loop had not finished after [fuel] iterations". *)

From Stdlib Require Import String List ZArith Bool Arith Lia Relations.
Import ListNotations.

(** ** Identifiers: [string | number] compared with [===] *)

Inductive Identifier : Type :=
| IdStr (s : string)
| IdNum (n : Z).

Definition Identifier_eq_dec (x y : Identifier) : {x = y} + {x <> y}.
Proof. decide equality; [apply string_dec | apply Z.eq_dec]. Defined.

Definition id_eqb (x y : Identifier) : bool :=
  if Identifier_eq_dec x y then true else false.

(** [a !== b] on [string | number | null]. *)
Definition opt_id_eqb (x y : option Identifier) : bool :=
  match x, y with
  | None, None => true
  | Some a, Some b => id_eqb a b
  | _, _ => false
  end.

(** ** Records *)

(** [interface TreeStoreItem]; the index signature [[key: string]: unknown]
    is kept as the list of the other fields. *)
Record TreeStoreItem : Type := mkItem {
  id : Identifier;
  parent : option Identifier;
  label : string;
  extra : list (string * string)
}.

Definition TreeStoreItem_eq_dec (x y : TreeStoreItem) : {x = y} + {x <> y}.
Proof.
  decide equality;
    repeat (first [ apply list_eq_dec | apply string_dec | apply Identifier_eq_dec
                  | decide equality ]).
Defined.

(** ** JavaScript [Map] keyed by identifiers *)

Definition JsMap (V : Type) : Type := list (Identifier * V).

Fixpoint map_get {V} (m : JsMap V) (k : Identifier) : option V :=
  match m with
  | [] => None
  | (k', v) :: t => if id_eqb k k' then Some v else map_get t k
  end.

Definition map_has {V} (m : JsMap V) (k : Identifier) : bool :=
  match map_get m k with Some _ => true | None => false end.

Fixpoint map_set {V} (m : JsMap V) (k : Identifier) (v : V) : JsMap V :=
  match m with
  | [] => [(k, v)]
  | (k', v') :: t => if id_eqb k k' then (k', v) :: t else (k', v') :: map_set t k v
  end.

Definition map_delete {V} (m : JsMap V) (k : Identifier) : JsMap V :=
  filter (fun kv => negb (id_eqb k (fst kv))) m.

Definition map_values {V} (m : JsMap V) : list V := map snd m.

(** [Array.prototype.findIndex], [-1] being [None]. *)
Fixpoint findIndex {A} (f : A -> bool) (l : list A) : option nat :=
  match l with
  | [] => None
  | x :: t => if f x then Some 0 else option_map S (findIndex f t)
  end.

(** [arr.splice(index, 1)]: the array without its [index]-th element. *)
Definition splice {A} (l : list A) (index : nat) : list A :=
  firstn index l ++ skipn (S index) l.

(** ** The store *)

Record TreeStore : Type := mkStore {
  items : JsMap TreeStoreItem;
  childrenMap : JsMap (list TreeStoreItem)
}.

(** [if (!childrenMap.has(p)) childrenMap.set(p, []); childrenMap.get(p)!.push(item)] *)
Definition push_child (cm : JsMap (list TreeStoreItem)) (p : Identifier)
  (item : TreeStoreItem) : JsMap (list TreeStoreItem) :=
  map_set cm p (match map_get cm p with Some l => l | None => [] end ++ [item]).

(** [constructor] / [initialize]: no validation. *)
Definition initialize (l : list TreeStoreItem) : TreeStore :=
  let its := fold_left (fun m item => map_set m (id item) item) l [] in
  let cm := fold_left (fun cm item =>
                         match parent item with
                         | Some parentId => push_child cm parentId item
                         | None => cm
                         end) l [] in
  mkStore its cm.

(** ** Queries *)

Definition getAll (s : TreeStore) : list TreeStoreItem := map_values (items s).

Definition getItem (s : TreeStore) (i : Identifier) : option TreeStoreItem :=
  map_get (items s) i.

(** [this.childrenMap.get(id) || []] *)
Definition getChildren (s : TreeStore) (i : Identifier) : list TreeStoreItem :=
  match map_get (childrenMap s) i with Some l => l | None => [] end.

(** The [while (queue.length > 0)] loop of [getAllChildren]: [queue.shift()],
    [items.push(current)], [queue.push(...this.getChildren(current.id))]. *)
Fixpoint bfs (fuel : nat) (s : TreeStore) (queue acc : list TreeStoreItem)
  : option (list TreeStoreItem) :=
  match queue with
  | [] => Some acc
  | current :: rest =>
      match fuel with
      | O => None
      | S f => bfs f s (rest ++ getChildren s (id current)) (acc ++ [current])
      end
  end.

Definition getAllChildren (fuel : nat) (s : TreeStore) (i : Identifier)
  : option (list TreeStoreItem) :=
  bfs fuel s (getChildren s i) [].

(** The [while (current.parent !== null)] loop of [getAllParents]. *)
Fixpoint parents_walk (fuel : nat) (s : TreeStore) (current : TreeStoreItem)
  (parents : list TreeStoreItem) : option (list TreeStoreItem) :=
  match parent current with
  | None => Some parents
  | Some p =>
      match getItem s p with
      | None => Some parents
      | Some par =>
          match fuel with
          | O => None
          | S f => parents_walk f s par (parents ++ [par])
          end
      end
  end.

Definition getAllParents (fuel : nat) (s : TreeStore) (i : Identifier)
  : option (list TreeStoreItem) :=
  match getItem s i with
  | None => Some []
  | Some current => parents_walk fuel s current [current]
  end.

Definition wouldCreateCircularReference (fuel : nat) (s : TreeStore)
  (itemId newParentId : Identifier) : option bool :=
  if id_eqb itemId newParentId then Some true
  else match getAllChildren fuel s itemId with
       | Some allChildren =>
           Some (existsb (fun child => id_eqb (id child) newParentId) allChildren)
       | None => None
       end.

(** ** Errors and the state/exception monad of the mutating methods

    A method runs on [this] and either returns or throws; a throw leaves
    [this] in whatever state it had reached.  [OutOfFuel] marks a loop that
    had not finished within its bound. *)

Inductive TreeError : Type :=
| ItemAlreadyExists (i : Identifier)   (* `Item with id ${id} already exists` *)
| ParentNotFound (p : Identifier)      (* `Parent with id ${p} does not exist` *)
| CircularReference                    (* 'Circular reference detected' *)
| ItemNotFound (i : Identifier).       (* `Item with id ${id} does not exist` *)

Inductive Result (A : Type) : Type :=
| Ok (a : A)
| Err (e : TreeError)
| OutOfFuel.
Arguments Ok {A} a.
Arguments Err {A} e.
Arguments OutOfFuel {A}.

Definition M (A : Type) : Type := TreeStore -> Result A * TreeStore.

Definition ret {A} (a : A) : M A := fun s => (Ok a, s).

Definition bind {A B} (m : M A) (k : A -> M B) : M B :=
  fun s =>
    match m s with
    | (Ok a, s') => k a s'
    | (Err e, s') => (Err e, s')
    | (OutOfFuel, s') => (OutOfFuel, s')
    end.

Notation "x <- m ;; k" := (bind m (fun x => k))
  (at level 61, m at next level, right associativity).
Notation "m ;;; k" := (bind m (fun _ : unit => k))
  (at level 61, right associativity).

Definition throw {A} (e : TreeError) : M A := fun s => (Err e, s).
Definition gets {A} (f : TreeStore -> A) : M A := fun s => (Ok (f s), s).
Definition modify (f : TreeStore -> TreeStore) : M unit := fun s => (Ok tt, f s).
Definition run_loop {A} (f : TreeStore -> option A) : M A :=
  fun s => match f s with Some a => (Ok a, s) | None => (OutOfFuel, s) end.

Fixpoint forEach {A} (l : list A) (f : A -> M unit) : M unit :=
  match l with
  | [] => ret tt
  | x :: t => f x ;;; forEach t f
  end.

Definition set_items (f : JsMap TreeStoreItem -> JsMap TreeStoreItem) (s : TreeStore) :=
  mkStore (f (items s)) (childrenMap s).
Definition set_children
  (f : JsMap (list TreeStoreItem) -> JsMap (list TreeStoreItem)) (s : TreeStore) :=
  mkStore (items s) (f (childrenMap s)).

(** [if (x.parent !== null && !this.items.has(x.parent)) throw ...] *)
Definition check_parent_exists (np : option Identifier) : M unit :=
  match np with
  | Some p =>
      has_p <- gets (fun s => map_has (items s) p);;
      if has_p then ret tt else throw (ParentNotFound p)
  | None => ret tt
  end.

(** [if (x.parent !== null && this.wouldCreateCircularReference(x.id, x.parent)) throw ...] *)
Definition check_circular (fuel : nat) (itemId : Identifier) (np : option Identifier)
  : M unit :=
  match np with
  | Some p =>
      circ <- run_loop (fun s => wouldCreateCircularReference fuel s itemId p);;
      if circ then throw CircularReference else ret tt
  | None => ret tt
  end.

Definition addItem (fuel : nat) (item : TreeStoreItem) : M unit :=
  has_id <- gets (fun s => map_has (items s) (id item));;
  if has_id then throw (ItemAlreadyExists (id item)) else
  check_parent_exists (parent item);;;
  check_circular fuel (id item) (parent item);;;
  (* this.items.set(item.id, { ...item }) *)
  modify (set_items (fun its => map_set its (id item) item));;;
  match parent item with
  | Some parentId => modify (set_children (fun cm => push_child cm parentId item))
  | None => ret tt
  end.

(** [this.items.delete(k); this.childrenMap.delete(k)] *)
Definition delete_both (k : Identifier) (s : TreeStore) : TreeStore :=
  mkStore (map_delete (items s) k) (map_delete (childrenMap s) k).

(** [const arr = childrenMap.get(p); if (arr) { const index = arr.findIndex(
    (child) => child.id === i); if (index !== -1) arr.splice(index, 1); }] *)
Definition unlink_child (p i : Identifier) : M unit :=
  arr <- gets (fun s => map_get (childrenMap s) p);;
  match arr with
  | Some pc =>
      match findIndex (fun child => id_eqb (id child) i) pc with
      | Some index => modify (set_children (fun cm => map_set cm p (splice pc index)))
      | None => ret tt
      end
  | None => ret tt
  end.

Definition removeItem (fuel : nat) (i : Identifier) : M unit :=
  item <- gets (fun s => getItem s i);;
  match item with
  | None => ret tt
  | Some item =>
      allChildren <- run_loop (fun s => getAllChildren fuel s i);;
      forEach allChildren (fun child => modify (delete_both (id child)));;;
      modify (delete_both i);;;
      match parent item with
      | Some p => unlink_child p i
      | None => ret tt
      end
  end.

Definition updateItem (fuel : nat) (updatedItem : TreeStoreItem) : M unit :=
  existing <- gets (fun s => getItem s (id updatedItem));;
  match existing with
  | None => throw (ItemNotFound (id updatedItem))
  | Some existingItem =>
      check_parent_exists (parent updatedItem);;;
      check_circular fuel (id updatedItem) (parent updatedItem);;;
      (if negb (opt_id_eqb (parent existingItem) (parent updatedItem)) then
         (match parent existingItem with
          | Some op => unlink_child op (id updatedItem)
          | None => ret tt
          end);;;
         (match parent updatedItem with
          | Some np => modify (set_children (fun cm => push_child cm np updatedItem))
          | None => ret tt
          end)
       else ret tt);;;
      modify (set_items (fun its => map_set its (id updatedItem) updatedItem))
  end.

(** ** The fixture of the test suite *)

Definition nid (n : Z) : Identifier := IdNum n.
Definition idA : Identifier := IdStr "91064cee".

Definition item (i : Identifier) (p : option Identifier) (l : string) : TreeStoreItem :=
  mkItem i p l [].

Definition mockItems : list TreeStoreItem :=
  [ item (nid 1) None "Item 1";
    item idA (Some (nid 1)) "Item 2";
    item (nid 3) (Some (nid 1)) "Item 3";
    item (nid 4) (Some idA) "Item 4";
    item (nid 5) (Some idA) "Item 5";
    item (nid 6) (Some idA) "Item 6";
    item (nid 7) (Some (nid 4)) "Item 7";
    item (nid 8) (Some (nid 4)) "Item 8" ].

Definition fixture : TreeStore := initialize mockItems.

Definition ids (l : list TreeStoreItem) : list Identifier := map id l.

(** [arr.findIndex(c => c.id === i)] followed by [arr.splice(index, 1)],
    said plainly: the first entry with identifier [i] is dropped, the others
    keep their order. *)
Fixpoint delete_first (i : Identifier) (l : list TreeStoreItem) : list TreeStoreItem :=
  match l with
  | [] => []
  | c :: t => if id_eqb (id c) i then t else c :: delete_first i t
  end.

(** ** The parent relation of the primary index *)

(** [up s x]: the parent identifier of the record stored under [x]. *)
Definition up (s : TreeStore) (x : Identifier) : option Identifier :=
  match getItem s x with Some it => parent it | None => None end.

(** [y] is an ancestor of [x]: the parent chain of [x] reaches [y]. *)
Definition ancestor (s : TreeStore) : Identifier -> Identifier -> Prop :=
  clos_trans Identifier (fun x y => up s x = Some y).

(** Invariant 3: no item is its own ancestor. *)
Definition acyclic (s : TreeStore) : Prop := forall x, ~ ancestor s x x.

Fixpoint iter_up (s : TreeStore) (n : nat) (x : Identifier) : option Identifier :=
  match n with
  | O => Some x
  | S n' => match up s x with Some y => iter_up s n' y | None => None end
  end.

(** The BFS levels below a queue: level [0] is the queue itself, level
    [k+1] lists the children of the entries of level [k]. *)
Definition children_of (s : TreeStore) (l : list TreeStoreItem) : list TreeStoreItem :=
  flat_map (fun c => getChildren s (id c)) l.

Fixpoint level (s : TreeStore) (q : list TreeStoreItem) (k : nat) : list TreeStoreItem :=
  match k with
  | O => q
  | S k' => children_of s (level s q k')
  end.

(** ** The store invariants of the spec

    [store_inv_ids] states invariants 1-4 on identifiers: keys are the
    records' identifiers and unique (1), parents exist (2), acyclicity (3),
    and the child lists are, as lists of identifiers without repetition,
    exactly the inverse of the [parent] field (4).  [store_inv] adds that the
    entries of the child lists are the stored records themselves. *)
Record store_inv_ids (s : TreeStore) : Prop := {
  inv_nodup_items : NoDup (map fst (items s));
  inv_keys : forall k it, getItem s k = Some it -> id it = k;
  inv_parent : forall k it p, getItem s k = Some it -> parent it = Some p ->
                 map_has (items s) p = true;
  inv_acyclic : acyclic s;
  inv_sound : forall p c, In c (getChildren s p) -> up s (id c) = Some p;
  inv_complete : forall k p, up s k = Some p -> In k (ids (getChildren s p));
  inv_nodup : forall p, NoDup (ids (getChildren s p))
}.

Record store_inv (s : TreeStore) : Prop := {
  inv_ids : store_inv_ids s;
  inv_records : forall p c, In c (getChildren s p) -> getItem s (id c) = Some c
}.

(** Decision procedures for the invariants, used on concrete stores. *)
Fixpoint nodupb (l : list Identifier) : bool :=
  match l with
  | [] => true
  | x :: t => negb (existsb (id_eqb x) t) && nodupb t
  end.

Definition opt_eqb (x y : option Identifier) : bool := opt_id_eqb x y.

Definition item_eqb (x y : TreeStoreItem) : bool :=
  if TreeStoreItem_eq_dec x y then true else false.

(** Every parent walk from a stored key stops within [length items + 1]
    steps. *)
Definition acyclicb (s : TreeStore) : bool :=
  forallb (fun kv => match iter_up s (S (length (items s))) (fst kv) with
                     | None => true | Some _ => false end) (items s).

Definition store_inv_idsb (s : TreeStore) : bool :=
  let n := length (items s) in
  nodupb (map fst (items s)) &&
  forallb (fun kv => id_eqb (id (snd kv)) (fst kv)) (items s) &&
  forallb (fun kv => match parent (snd kv) with
                     | Some p => map_has (items s) p
                     | None => true end) (items s) &&
  acyclicb s &&
  forallb (fun kv => forallb (fun c => opt_eqb (up s (id c)) (Some (fst kv))) (snd kv))
    (childrenMap s) &&
  forallb (fun kv => match up s (fst kv) with
                     | Some p => existsb (id_eqb (fst kv)) (ids (getChildren s p))
                     | None => true end) (items s) &&
  forallb (fun kv => nodupb (ids (snd kv))) (childrenMap s).

Definition store_invb (s : TreeStore) : bool :=
  store_inv_idsb s &&
  forallb (fun kv => forallb (fun c => match getItem s (id c) with
                                       | Some c' => item_eqb c' c
                                       | None => false end) (snd kv))
    (childrenMap s).

(** ** Sequences of successful mutating calls *)

Inductive Op : Type :=
| OpAdd (it : TreeStoreItem)
| OpUpdate (it : TreeStoreItem)
| OpRemove (i : Identifier).

Definition run_op (fuel : nat) (op : Op) : M unit :=
  match op with
  | OpAdd it => addItem fuel it
  | OpUpdate it => updateItem fuel it
  | OpRemove i => removeItem fuel i
  end.

(** [runs s ops s']: every call of [ops] returns, in turn, from [s] to [s']. *)
Inductive runs : TreeStore -> list Op -> TreeStore -> Prop :=
| runs_nil s : runs s [] s
| runs_cons s op ops s1 s2 :
    (exists fuel, run_op fuel op s = (Ok tt, s1)) -> runs s1 ops s2 -> runs s (op :: ops) s2.

(** The ancestor chain of the spec: [self, parent, grandparent, ...], ending
    at a root or at the first dangling parent reference. *)
Inductive ancestor_chain (s : TreeStore) : TreeStoreItem -> list TreeStoreItem -> Prop :=
| chain_root it : parent it = None -> ancestor_chain s it [it]
| chain_dangling it p : parent it = Some p -> getItem s p = None -> ancestor_chain s it [it]
| chain_step it p par l : parent it = Some p -> getItem s p = Some par ->
    ancestor_chain s par l -> ancestor_chain s it (it :: l).

(** The last entry with identifier [k] of a list. *)
Fixpoint last_with_id (k : Identifier) (l : list TreeStoreItem) : option TreeStoreItem :=
  match l with
  | [] => None
  | x :: t => match last_with_id k t with
              | Some y => Some y
              | None => if id_eqb (id x) k then Some x else None
              end
  end.

Definition is_child_of (p : Identifier) (it : TreeStoreItem) : bool :=
  opt_id_eqb (parent it) (Some p).

(** The states the mutating methods reach, written as functions. *)
Definition unlink_state (p i : Identifier) (s : TreeStore) : TreeStore :=
  match map_get (childrenMap s) p with
  | Some pc =>
      match findIndex (fun child => id_eqb (id child) i) pc with
      | Some index => set_children (fun cm => map_set cm p (splice pc index)) s
      | None => s
      end
  | None => s
  end.

Definition add_state (s : TreeStore) (it : TreeStoreItem) : TreeStore :=
  let s1 := set_items (fun its => map_set its (id it) it) s in
  match parent it with
  | Some p => set_children (fun cm => push_child cm p it) s1
  | None => s1
  end.

Definition remove_state (s : TreeStore) (it : TreeStoreItem) (i : Identifier)
  (allChildren : list TreeStoreItem) : TreeStore :=
  let s1 := delete_both i (fold_left (fun st c => delete_both (id c) st) allChildren s) in
  match parent it with
  | Some p => unlink_state p i s1
  | None => s1
  end.

Definition update_state (s : TreeStore) (existingItem u : TreeStoreItem) : TreeStore :=
  let s1 :=
    if negb (opt_id_eqb (parent existingItem) (parent u)) then
      let s0 := match parent existingItem with
                | Some op => unlink_state op (id u) s
                | None => s
                end in
      match parent u with
      | Some np => set_children (fun cm => push_child cm np u) s0
      | None => s0
      end
    else s in
  set_items (fun its => map_set its (id u) u) s1.

(** The effect of a successful [addItem] in the words of the spec: the
    record is inserted into the primary index and appended to the end of its
    parent's child list (created when absent). *)
Definition add_effect (s : TreeStore) (it : TreeStoreItem) (s' : TreeStore) : Prop :=
  getItem s' (id it) = Some it /\
  (forall k, k <> id it -> getItem s' k = getItem s k) /\
  getAll s' = getAll s ++ [it] /\
  (forall k, getChildren s' k =
             if is_child_of k it then getChildren s k ++ [it] else getChildren s k).

(** ** Inputs of the unchecked constructor used below *)

(** A parent cycle: 1 -> 2 -> 1. *)
Definition cyclic_store : TreeStore :=
  initialize [item (nid 1) (Some (nid 2)) "a"; item (nid 2) (Some (nid 1)) "b"].

(** Identifier 2 listed twice under 1. *)
Definition dup_store : TreeStore :=
  initialize [item (nid 1) None "a"; item (nid 2) (Some (nid 1)) "b";
              item (nid 2) (Some (nid 1)) "b"].

(** Parent fields acyclic (2 -> 1 -> null) but the child lists loop, since
    the first entry for 1 left a record under 2. *)
Definition looping_children_store : TreeStore :=
  initialize [item (nid 1) (Some (nid 2)) "a"; item (nid 2) (Some (nid 1)) "b";
              item (nid 1) None "a"].

(** Identifier 3 listed twice under 2, itself listed twice under 1. *)
Definition dup_subtree_input : list TreeStoreItem :=
  [item (nid 1) None "a"; item (nid 2) (Some (nid 1)) "b"; item (nid 2) (Some (nid 1)) "b";
   item (nid 3) (Some (nid 2)) "c"; item (nid 3) (Some (nid 2)) "c"].

(** ** [getDataPath] of the tree view component ([src/unnamed/part_000])

    [rowData.value.find(row => row.id === itemId)] is [find] on the row
    list.  The recursion of [buildPath] has no revisit guard; its depth is
    bounded by [fuel] ([None]: the recursion had not finished, a stack
    overflow in the component).  The shared [path] array is threaded
    through the calls: [buildPath(item.parent)] runs first, then
    [path.push(item.label)]. *)
Fixpoint buildPath (fuel : nat) (rows : list TreeStoreItem) (itemId : option Identifier)
  (path : list string) : option (list string) :=
  match itemId with
  | None => Some path
  | Some i =>
      match find (fun row => id_eqb (id row) i) rows with
      | None => Some path
      | Some it =>
          match fuel with
          | O => None
          | S f =>
              match buildPath f rows (parent it) path with
              | Some path' => Some (path' ++ [label it])
              | None => None
              end
          end
      end
  end.

Definition getDataPath (fuel : nat) (rows : list TreeStoreItem) (data : TreeStoreItem)
  : option (list string) :=
  match buildPath fuel rows (parent data) [] with
  | Some path => Some (path ++ [label data])
  | None => None
  end.

(** * Proofs *)

(** ** Identifiers and maps *)

Lemma id_eqb_true x y : id_eqb x y = true <-> x = y.
Proof. unfold id_eqb; destruct (Identifier_eq_dec x y); split; congruence. Qed.

Lemma id_eqb_refl x : id_eqb x x = true.
Proof. apply id_eqb_true; reflexivity. Qed.

Lemma id_eqb_false x y : id_eqb x y = false <-> x <> y.
Proof. unfold id_eqb; destruct (Identifier_eq_dec x y); split; congruence. Qed.

Lemma id_eqb_sym x y : id_eqb x y = id_eqb y x.
Proof.
  unfold id_eqb; destruct (Identifier_eq_dec x y), (Identifier_eq_dec y x); congruence.
Qed.

Ltac id_destr x y :=
  let E := fresh "E" in
  destruct (id_eqb x y) eqn:E;
  [apply id_eqb_true in E; subst | apply id_eqb_false in E].

Section JsMapFacts.
Context {V : Type}.
Implicit Types (m : JsMap V) (k x : Identifier) (v : V).

Lemma map_get_set m k v x :
  map_get (map_set m k v) x = if id_eqb x k then Some v else map_get m x.
Proof.
  induction m as [|[k' v'] t IH]; cbn; [reflexivity|].
  id_destr k k'; cbn.
  - destruct (id_eqb x k'); reflexivity.
  - rewrite IH. id_destr x k'; [|reflexivity].
    rewrite (proj2 (id_eqb_false k' k)); [reflexivity|congruence].
Qed.

Lemma map_get_delete m k x :
  map_get (map_delete m k) x = if id_eqb x k then None else map_get m x.
Proof.
  unfold map_delete; induction m as [|[k' v'] t IH]; cbn; [destruct (id_eqb x k); reflexivity|].
  id_destr k k'; cbn.
  - rewrite IH. destruct (id_eqb x k'); reflexivity.
  - rewrite IH. id_destr x k'.
    + rewrite (proj2 (id_eqb_false k' k)); [reflexivity|congruence].
    + reflexivity.
Qed.

Lemma map_has_get m k : map_has m k = true <-> exists v, map_get m k = Some v.
Proof.
  unfold map_has; destruct (map_get m k); split; intros H; try discriminate; eauto.
  destruct H; discriminate.
Qed.

Lemma map_get_In m k v : map_get m k = Some v -> In k (map fst m).
Proof.
  induction m as [|[k' v'] t IH]; cbn; [discriminate|].
  id_destr k k'; auto.
Qed.

Lemma map_get_None m k : map_get m k = None <-> ~ In k (map fst m).
Proof.
  induction m as [|[k' v'] t IH]; cbn; [tauto|].
  id_destr k k'; [split; [discriminate|tauto]|].
  rewrite IH; split; [intros H [H'|H']; [congruence|tauto] | tauto].
Qed.

Lemma map_values_set_new m k v :
  map_get m k = None -> map_values (map_set m k v) = map_values m ++ [v].
Proof.
  unfold map_values; induction m as [|[k' v'] t IH]; cbn; [reflexivity|].
  id_destr k k'; [discriminate|]. intros H; cbn; rewrite IH; auto.
Qed.

Lemma map_fst_set_new m k v :
  map_get m k = None -> map fst (map_set m k v) = map fst m ++ [k].
Proof.
  induction m as [|[k' v'] t IH]; cbn; [reflexivity|].
  id_destr k k'; [discriminate|]. intros H; cbn; rewrite IH; auto.
Qed.

Lemma map_fst_set_old m k v :
  map_get m k <> None -> map fst (map_set m k v) = map fst m.
Proof.
  induction m as [|[k' v'] t IH]; cbn; [congruence|].
  id_destr k k'; [reflexivity|]. intros H; cbn; rewrite IH; auto.
Qed.

End JsMapFacts.

(** ** The methods in closed form *)

Ltac run_m :=
  unfold check_parent_exists, check_circular, unlink_child in *;
  unfold bind, gets, throw, ret, modify, run_loop in *; cbn in *.

Lemma addItem_eq fuel it s :
  addItem fuel it s =
  if map_has (items s) (id it) then (Err (ItemAlreadyExists (id it)), s) else
  match parent it with
  | Some p =>
      if map_has (items s) p then
        match wouldCreateCircularReference fuel s (id it) p with
        | Some true => (Err CircularReference, s)
        | Some false => (Ok tt, add_state s it)
        | None => (OutOfFuel, s)
        end
      else (Err (ParentNotFound p), s)
  | None => (Ok tt, add_state s it)
  end.
Proof.
  unfold addItem, add_state; run_m.
  destruct (map_has (items s) (id it)); [reflexivity|].
  destruct (parent it) as [p|]; [|reflexivity].
  destruct (map_has (items s) p); [|reflexivity].
  destruct (wouldCreateCircularReference fuel s (id it) p) as [[|]|]; reflexivity.
Qed.

Lemma unlink_child_eq p i s : unlink_child p i s = (Ok tt, unlink_state p i s).
Proof.
  unfold unlink_state; run_m.
  destruct (map_get (childrenMap s) p) as [pc|]; [|reflexivity].
  destruct (findIndex _ pc); reflexivity.
Qed.

Lemma forEach_delete l s :
  forEach l (fun child => modify (delete_both (id child))) s =
  (Ok tt, fold_left (fun st c => delete_both (id c) st) l s).
Proof.
  revert s; induction l as [|c t IH]; intros s; [reflexivity|].
  cbn; unfold bind, modify; apply IH.
Qed.

Lemma removeItem_eq fuel i s :
  removeItem fuel i s =
  match getItem s i with
  | None => (Ok tt, s)
  | Some it =>
      match getAllChildren fuel s i with
      | None => (OutOfFuel, s)
      | Some l => (Ok tt, remove_state s it i l)
      end
  end.
Proof.
  unfold removeItem, remove_state; run_m.
  destruct (getItem s i) as [it|]; [|reflexivity].
  destruct (getAllChildren fuel s i) as [l|]; [|reflexivity].
  rewrite forEach_delete. cbn.
  destruct (parent it) as [p|]; [apply unlink_child_eq|reflexivity].
Qed.

Lemma updateItem_eq fuel u s :
  updateItem fuel u s =
  match getItem s (id u) with
  | None => (Err (ItemNotFound (id u)), s)
  | Some e =>
      match parent u with
      | Some p =>
          if map_has (items s) p then
            match wouldCreateCircularReference fuel s (id u) p with
            | Some true => (Err CircularReference, s)
            | Some false => (Ok tt, update_state s e u)
            | None => (OutOfFuel, s)
            end
          else (Err (ParentNotFound p), s)
      | None => (Ok tt, update_state s e u)
      end
  end.
Proof.
  unfold updateItem, update_state; run_m.
  destruct (getItem s (id u)) as [e|]; [|reflexivity].
  destruct (parent u) as [p|] eqn:Hp;
    [destruct (map_has (items s) p);
       [destruct (wouldCreateCircularReference fuel s (id u) p) as [[|]|]|]|];
    try reflexivity;
    (destruct (negb _); [|reflexivity]);
    (destruct (parent e) as [op|];
       [unfold unlink_state; destruct (map_get (childrenMap s) op) as [pc|];
          [destruct (findIndex _ pc)|]|]);
    reflexivity.
Qed.

(** ** Effects on the two indices *)

Lemma getChildren_push s p it k :
  getChildren (set_children (fun cm => push_child cm p it) s) k =
  if id_eqb k p then getChildren s p ++ [it] else getChildren s k.
Proof.
  unfold getChildren, set_children, push_child; cbn.
  rewrite map_get_set. destruct (id_eqb k p); reflexivity.
Qed.

Lemma splice_findIndex l i n :
  findIndex (fun c => id_eqb (id c) i) l = Some n -> splice l n = delete_first i l.
Proof.
  revert n; induction l as [|c t IH]; intros n; cbn; [discriminate|].
  destruct (id_eqb (id c) i).
  - intros H; injection H as <-; reflexivity.
  - destruct (findIndex _ t) as [m|] eqn:E; cbn; [|discriminate].
    intros H; injection H as <-. unfold splice in *; cbn. rewrite <- (IH m); reflexivity.
Qed.

Lemma findIndex_None l i :
  findIndex (fun c => id_eqb (id c) i) l = None -> delete_first i l = l.
Proof.
  induction l as [|c t IH]; cbn; [reflexivity|].
  destruct (id_eqb (id c) i); [discriminate|].
  destruct (findIndex _ t); cbn; [discriminate|]. intros _; rewrite IH; reflexivity.
Qed.

Lemma unlink_items p i s : items (unlink_state p i s) = items s.
Proof.
  unfold unlink_state. destruct (map_get _ p); [destruct (findIndex _ _)|]; reflexivity.
Qed.

Lemma getChildren_unlink p i s k :
  getChildren (unlink_state p i s) k =
  if id_eqb k p then delete_first i (getChildren s p) else getChildren s k.
Proof.
  unfold unlink_state, getChildren.
  destruct (map_get (childrenMap s) p) as [pc|] eqn:Hp.
  - destruct (findIndex _ pc) as [n|] eqn:Hf; cbn.
    + rewrite map_get_set. id_destr k p; [|reflexivity].
      try rewrite Hp. apply (splice_findIndex _ _ _ Hf).
    + id_destr k p; [|reflexivity]. try rewrite Hp. rewrite (findIndex_None _ _ Hf); reflexivity.
  - id_destr k p; [try rewrite Hp|]; reflexivity.
Qed.

Lemma fold_delete_getItem l s x :
  getItem (fold_left (fun st c => delete_both (id c) st) l s) x =
  if existsb (id_eqb x) (ids l) then None else getItem s x.
Proof.
  revert s; induction l as [|c t IH]; intros s; cbn; [reflexivity|].
  rewrite IH. unfold getItem, delete_both; cbn. rewrite map_get_delete.
  destruct (id_eqb x (id c)), (existsb _ _); reflexivity.
Qed.

Lemma fold_delete_children l s x :
  map_get (childrenMap (fold_left (fun st c => delete_both (id c) st) l s)) x =
  if existsb (id_eqb x) (ids l) then None else map_get (childrenMap s) x.
Proof.
  revert s; induction l as [|c t IH]; intros s; cbn; [reflexivity|].
  rewrite IH. unfold delete_both; cbn. rewrite map_get_delete.
  destruct (id_eqb x (id c)), (existsb _ _); reflexivity.
Qed.

Lemma existsb_id_In x l : existsb (id_eqb x) l = true <-> In x l.
Proof.
  rewrite existsb_exists; split.
  - intros (y & Hy & E); apply id_eqb_true in E; subst; exact Hy.
  - intros H; exists x; split; [exact H|apply id_eqb_refl].
Qed.

Lemma is_child_of_eq k it : is_child_of k it = true <-> parent it = Some k.
Proof.
  unfold is_child_of, opt_id_eqb; destruct (parent it) as [p|]; [|split; discriminate].
  rewrite id_eqb_true; split; congruence.
Qed.

(** ** C3: a failed [addItem] or [updateItem] leaves the store unchanged *)

(** C3. If [addItem] or [updateItem] throws (ItemAlreadyExists, ItemNotFound,
    ParentNotFound or CircularReference), the store after the call is the
    store before it: both indices, hence [getAll], [getItem] and
    [getChildren], are untouched. *)
Theorem failed_call_leaves_store_unchanged fuel s it e s' :
  (addItem fuel it s = (Err e, s') -> s' = s) /\
  (updateItem fuel it s = (Err e, s') -> s' = s).
Proof.
  split.
  - rewrite addItem_eq.
    destruct (map_has (items s) (id it)); [congruence|].
    destruct (parent it) as [p|]; [|discriminate].
    destruct (map_has (items s) p); [|congruence].
    destruct (wouldCreateCircularReference _ _ _ _) as [[|]|]; congruence.
  - rewrite updateItem_eq.
    destruct (getItem s (id it)) as [ex|]; [|congruence].
    destruct (parent it) as [p|]; [|discriminate].
    destruct (map_has (items s) p); [|congruence].
    destruct (wouldCreateCircularReference _ _ _ _) as [[|]|]; congruence.
Qed.

Lemma failed_call_witness :
  addItem 100 (item (nid 1) None "dup") fixture = (Err (ItemAlreadyExists (nid 1)), fixture)
  /\ fixture = fixture.
Proof.
  assert (H : addItem 100 (item (nid 1) None "dup") fixture
              = (Err (ItemAlreadyExists (nid 1)), fixture)) by (vm_compute; reflexivity).
  split; [exact H|].
  exact (proj1 (failed_call_leaves_store_unchanged 100 fixture (item (nid 1) None "dup")
                  (ItemAlreadyExists (nid 1)) fixture) H).
Defined.

(** ** C4: the outcome of [addItem] *)

Lemma add_state_effect s it :
  map_has (items s) (id it) = false -> add_effect s it (add_state s it).
Proof.
  intros Hnew.
  assert (Hn : map_get (items s) (id it) = None)
    by (unfold map_has in Hnew; destruct (map_get _ _); congruence).
  unfold add_effect, add_state.
  assert (Hi : items (match parent it with
                      | Some p => set_children (fun cm => push_child cm p it)
                                    (set_items (fun its => map_set its (id it) it) s)
                      | None => set_items (fun its => map_set its (id it) it) s end)
               = map_set (items s) (id it) it) by (destruct (parent it); reflexivity).
  unfold getItem, getAll; rewrite Hi. repeat split.
  - rewrite map_get_set, id_eqb_refl; reflexivity.
  - intros k Hk. rewrite map_get_set. rewrite (proj2 (id_eqb_false k (id it)) Hk); reflexivity.
  - apply map_values_set_new; exact Hn.
  - intros k. destruct (parent it) as [p|] eqn:Hp.
    + rewrite getChildren_push. unfold is_child_of; rewrite Hp; cbn.
      rewrite (id_eqb_sym p k). id_destr k p; reflexivity.
    + unfold is_child_of; rewrite Hp; reflexivity.
Qed.

(** C4. [addItem(item)] throws ItemAlreadyExists exactly when [item.id] is
    stored; otherwise ParentNotFound exactly when [item.parent] is non-null
    and absent; otherwise, with [l] the result of [getAllChildren(item.id)],
    CircularReference exactly when [item.parent] equals [item.id] or is the
    identifier of a member of [l]; otherwise it returns, having inserted the
    item into the primary index and appended it to the end of its parent's
    child list (created when absent). *)
Theorem addItem_outcomes fuel s it :
  (map_has (items s) (id it) = true ->
     addItem fuel it s = (Err (ItemAlreadyExists (id it)), s)) /\
  (map_has (items s) (id it) = false -> forall p,
     parent it = Some p -> map_has (items s) p = false ->
     addItem fuel it s = (Err (ParentNotFound p), s)) /\
  (map_has (items s) (id it) = false -> forall p l,
     parent it = Some p -> map_has (items s) p = true ->
     getAllChildren fuel s (id it) = Some l ->
     (p = id it \/ In p (ids l)) ->
     addItem fuel it s = (Err CircularReference, s)) /\
  (map_has (items s) (id it) = false -> parent it = None ->
     exists s', addItem fuel it s = (Ok tt, s') /\ add_effect s it s') /\
  (map_has (items s) (id it) = false -> forall p l,
     parent it = Some p -> map_has (items s) p = true ->
     getAllChildren fuel s (id it) = Some l ->
     p <> id it -> ~ In p (ids l) ->
     exists s', addItem fuel it s = (Ok tt, s') /\ add_effect s it s').
Proof.
  rewrite addItem_eq.
  split; [intros ->; reflexivity|].
  split; [intros -> p -> ->; reflexivity|].
  split.
  { intros -> p l -> -> Hl Hp. unfold wouldCreateCircularReference.
    id_destr (id it) p; [reflexivity|]. rewrite Hl.
    destruct Hp as [Hp|Hp]; [congruence|].
    assert (Hx : existsb (fun child => id_eqb (id child) p) l = true).
    { apply existsb_exists. apply in_map_iff in Hp as (c & Hc & Hin).
      exists c; split; [exact Hin|apply id_eqb_true; exact Hc]. }
    rewrite Hx; reflexivity. }
  split.
  { intros Hn Hp. rewrite Hn, Hp. exists (add_state s it); split; [reflexivity|].
    apply add_state_effect; exact Hn. }
  intros Hn p l Hp Hhas Hl Hne Hnin. rewrite Hn, Hp, Hhas.
  unfold wouldCreateCircularReference.
  rewrite (proj2 (id_eqb_false (id it) p)) by congruence. rewrite Hl.
  assert (Hx : existsb (fun child => id_eqb (id child) p) l = false).
  { destruct (existsb _ l) eqn:E; [|reflexivity].
    apply existsb_exists in E as (c & Hc & E). apply id_eqb_true in E.
    exfalso; apply Hnin, in_map_iff; exists c; split; assumption. }
  rewrite Hx. exists (add_state s it); split; [reflexivity|].
  apply add_state_effect; exact Hn.
Qed.

Lemma addItem_outcomes_witness :
  exists s', addItem 100 (item (nid 9) (Some (nid 1)) "new") fixture = (Ok tt, s') /\
             add_effect fixture (item (nid 9) (Some (nid 1)) "new") s'.
Proof.
  refine (proj2 (proj2 (proj2 (proj2 (addItem_outcomes 100 fixture
           (item (nid 9) (Some (nid 1)) "new")))))
           _ (nid 1) [] eq_refl _ _ _ _).
  - vm_compute. reflexivity.
  - vm_compute. reflexivity.
  - vm_compute. reflexivity.
  - discriminate.
  - intros H; exact H.
Defined.

(** ** Parent chains *)

Lemma iter_up_add s m n x :
  iter_up s (m + n) x = match iter_up s m x with Some y => iter_up s n y | None => None end.
Proof.
  revert x; induction m as [|m IH]; intros x; [reflexivity|].
  cbn. destruct (up s x); [apply IH|reflexivity].
Qed.

Lemma iter_up_prefix s m n x y :
  iter_up s (m + n) x = Some y -> exists z, iter_up s m x = Some z /\ iter_up s n z = Some y.
Proof.
  rewrite iter_up_add. destruct (iter_up s m x) as [z|]; [eauto|discriminate].
Qed.

Lemma ancestor_iter s x y : ancestor s x y <-> exists n, iter_up s (S n) x = Some y.
Proof.
  split.
  - induction 1 as [x y H|x y z _ [n1 H1] _ [n2 H2]].
    + exists 0; cbn; rewrite H; reflexivity.
    + exists (n1 + S n2). change (S (n1 + S n2)) with (S n1 + S n2).
      rewrite iter_up_add, H1; exact H2.
  - intros [n Hn]; revert x Hn; induction n as [|n IH]; intros x Hn; cbn in Hn.
    + destruct (up s x) eqn:E; [|discriminate]. injection Hn as <-. apply t_step; exact E.
    + destruct (up s x) as [z|] eqn:E; [|discriminate].
      apply t_trans with z; [apply t_step; exact E|apply IH; exact Hn].
Qed.

Lemma up_stored s x y : up s x = Some y -> In x (map fst (items s)).
Proof.
  unfold up, getItem. destruct (map_get (items s) x) eqn:E; [|discriminate].
  intros _; apply (map_get_In _ _ _ E).
Qed.

(** Under acyclicity a parent chain visits each stored key at most once, so
    it is no longer than the primary index. *)
Lemma acyclic_iter_bound s n x y :
  acyclic s -> iter_up s n x = Some y -> n <= length (items s).
Proof.
  intros Hac Hn.
  set (L := map (fun k => iter_up s k x) (seq 0 n)).
  assert (Hlen : length L = n) by (subst L; rewrite length_map, length_seq; reflexivity).
  assert (Hstep : forall k, k < n -> exists z, iter_up s k x = Some z /\ up s z <> None).
  { intros k Hk. replace n with (k + S (n - S k)) in Hn by lia.
    apply iter_up_prefix in Hn as (z & Hz & Hz').
    exists z; split; [exact Hz|]. cbn in Hz'. destruct (up s z); congruence. }
  assert (Hincl : incl L (map (fun kv => Some (fst kv)) (items s))).
  { intros o Ho. subst L. apply in_map_iff in Ho as (k & <- & Hk). apply in_seq in Hk.
    destruct (Hstep k ltac:(lia)) as (z & Hz & Hup). rewrite Hz.
    destruct (up s z) as [w|] eqn:E; [|congruence].
    apply up_stored in E. apply in_map_iff in E as ([k' v] & Hk' & Hin).
    apply in_map_iff. exists (k', v); cbn in *; subst; auto. }
  assert (Hnd : NoDup L).
  { subst L. apply NoDup_map_NoDup_ForallPairs; [|apply seq_NoDup].
    intros i j Hi Hj Heq. apply in_seq in Hi, Hj.
    destruct (Hstep i ltac:(lia)) as (zi & Hzi & _).
    destruct (lt_eq_lt_dec i j) as [[Hlt|Heq']|Hlt]; [|exact Heq'|].
    - exfalso. replace j with (i + S (j - S i)) in Heq by lia.
      rewrite iter_up_add, Hzi in Heq.
      apply (Hac zi). apply ancestor_iter. exists (j - S i). congruence.
    - exfalso. replace i with (j + S (i - S j)) in Heq by lia.
      destruct (Hstep j ltac:(lia)) as (zj & Hzj & _).
      rewrite iter_up_add, Hzj in Heq.
      apply (Hac zj). apply ancestor_iter. exists (i - S j). congruence. }
  rewrite <- Hlen. rewrite <- (length_map (fun kv => Some (fst kv)) (items s)).
  apply NoDup_incl_length; assumption.
Qed.

Lemma acyclic_stops s x : acyclic s -> iter_up s (S (length (items s))) x = None.
Proof.
  intros Hac. destruct (iter_up s (S (length (items s))) x) eqn:E; [|reflexivity].
  apply acyclic_iter_bound in E; [lia|exact Hac].
Qed.

Lemma iter_up_unique s m n x a :
  acyclic s -> iter_up s m x = Some a -> iter_up s n x = Some a -> m = n.
Proof.
  intros Hac Hm Hn. destruct (lt_eq_lt_dec m n) as [[Hlt|Heq]|Hlt]; [|exact Heq|].
  - exfalso. replace n with (m + S (n - S m)) in Hn by lia.
    rewrite iter_up_add, Hm in Hn. apply (Hac a), ancestor_iter; eauto.
  - exfalso. replace m with (n + S (m - S n)) in Hm by lia.
    rewrite iter_up_add, Hn in Hm. apply (Hac a), ancestor_iter; eauto.
Qed.

(** ** [getAllParents] *)

Lemma parents_walk_eq fuel s cur parents :
  parents_walk fuel s cur parents =
  match parent cur with
  | None => Some parents
  | Some p =>
      match getItem s p with
      | None => Some parents
      | Some par =>
          match fuel with
          | O => None
          | S f => parents_walk f s par (parents ++ [par])
          end
      end
  end.
Proof. destruct fuel; reflexivity. Qed.

Lemma parents_walk_ok s n :
  forall cur,
  (forall p, parent cur = Some p -> iter_up s n p = None) ->
  exists l, ancestor_chain s cur (cur :: l) /\
    forall acc fuel, n <= fuel -> parents_walk fuel s cur acc = Some (acc ++ l).
Proof.
  induction n as [|n IH]; intros cur Hstop.
  - destruct (parent cur) as [p|] eqn:Hp.
    + specialize (Hstop p eq_refl); discriminate.
    + exists []. split; [apply chain_root; exact Hp|].
      intros acc fuel _. rewrite parents_walk_eq, Hp, app_nil_r; reflexivity.
  - destruct (parent cur) as [p|] eqn:Hp.
    + destruct (getItem s p) as [par|] eqn:Hg.
      * destruct (IH par) as (l & Hc & Hl).
        { intros q Hq. specialize (Hstop p eq_refl). cbn in Hstop.
          unfold up in Hstop; rewrite Hg, Hq in Hstop; exact Hstop. }
        exists (par :: l). split; [apply chain_step with p par; assumption|].
        intros acc fuel Hfuel. destruct fuel as [|f]; [lia|].
        rewrite parents_walk_eq, Hp, Hg, Hl by lia. rewrite <- app_assoc; reflexivity.
      * exists []. split; [apply chain_dangling with p; assumption|].
        intros acc fuel _. rewrite parents_walk_eq, Hp, Hg, app_nil_r; reflexivity.
    + exists []. split; [apply chain_root; exact Hp|].
      intros acc fuel _. rewrite parents_walk_eq, Hp, app_nil_r; reflexivity.
Qed.

Lemma cycle_never_stops s x : ancestor s x x -> forall n, iter_up s n x <> None.
Proof.
  intros Hx n; revert x Hx; induction n as [|n IH]; intros x Hx; [discriminate|].
  pose proof Hx as Hx'. apply ancestor_iter in Hx' as [m Hm]. cbn in Hm |- *.
  destruct (up s x) as [y|] eqn:E; [|discriminate].
  apply IH. destruct m as [|m]; cbn in Hm.
  - injection Hm as ->; exact Hx.
  - apply t_trans with x; [apply ancestor_iter; exists m; exact Hm|apply t_step; exact E].
Qed.

(** ** The decision procedures for the invariants are sound *)

Lemma nodupb_NoDup l : nodupb l = true -> NoDup l.
Proof.
  induction l as [|x t IH]; cbn; [constructor|].
  intros H; apply andb_prop in H as [H1 H2]. constructor; [|apply IH, H2].
  intros Hin. apply negb_true_iff in H1. rewrite (proj2 (existsb_id_In x t) Hin) in H1.
  discriminate.
Qed.

Lemma opt_id_eqb_true a b : opt_id_eqb a b = true <-> a = b.
Proof.
  destruct a, b; cbn; try (split; congruence). rewrite id_eqb_true; split; congruence.
Qed.

Lemma map_get_In_pair {V} (m : JsMap V) k v : map_get m k = Some v -> In (k, v) m.
Proof.
  induction m as [|[k' v'] t IH]; cbn; [discriminate|].
  id_destr k k'; [intros H; injection H as <-; auto|auto].
Qed.

Lemma getChildren_In_pair s p c :
  In c (getChildren s p) -> exists l, In (p, l) (childrenMap s) /\ In c l.
Proof.
  unfold getChildren. destruct (map_get (childrenMap s) p) as [l|] eqn:E; [|intros []].
  intros H; exists l; split; [apply map_get_In_pair; exact E|exact H].
Qed.

Lemma key_In_pair {V} (m : JsMap V) k : In k (map fst m) -> exists v, In (k, v) m.
Proof. intros H; apply in_map_iff in H as ([k' v] & <- & H); eauto. Qed.

Lemma acyclicb_sound s : acyclicb s = true -> acyclic s.
Proof.
  unfold acyclicb; rewrite forallb_forall; intros Hac.
  intros x Hx. pose proof Hx as Hx'. apply ancestor_iter in Hx' as [m Hm].
  cbn in Hm. destruct (up s x) as [y|] eqn:E; [|discriminate].
  apply up_stored, key_In_pair in E as [v Hv].
  specialize (Hac _ Hv).
  change (match iter_up s (S (length (items s))) x with None => true | Some _ => false end
          = true) in Hac.
  destruct (iter_up s (S (length (items s))) x) eqn:E'; [discriminate|].
  exact (cycle_never_stops s x Hx _ E').
Qed.

Lemma store_inv_idsb_sound s : store_inv_idsb s = true -> store_inv_ids s.
Proof.
  unfold store_inv_idsb.
  intros H. repeat rewrite andb_true_iff in H.
  destruct H as [[[[[[Hnd Hkeys] Hpar] Hac] Hsnd] Hcpl] Hcnd].
  rewrite forallb_forall in Hkeys, Hpar, Hsnd, Hcpl, Hcnd.
  constructor.
  - apply nodupb_NoDup; exact Hnd.
  - intros k it Hk. apply map_get_In_pair in Hk. apply id_eqb_true, (Hkeys _ Hk).
  - intros k it p Hk Hp. apply map_get_In_pair in Hk. specialize (Hpar _ Hk). cbn in Hpar.
    rewrite Hp in Hpar; exact Hpar.
  - apply acyclicb_sound; exact Hac.
  - intros p c Hc. apply getChildren_In_pair in Hc as (l & Hpl & Hc).
    specialize (Hsnd _ Hpl). rewrite forallb_forall in Hsnd. specialize (Hsnd _ Hc).
    apply opt_id_eqb_true in Hsnd; exact Hsnd.
  - intros k p Hk. pose proof Hk as Hk'. apply up_stored, key_In_pair in Hk' as [v Hv].
    specialize (Hcpl _ Hv). cbn in Hcpl. rewrite Hk in Hcpl.
    apply existsb_id_In; exact Hcpl.
  - intros p. unfold getChildren. destruct (map_get (childrenMap s) p) as [l|] eqn:E;
      [|constructor].
    apply map_get_In_pair in E. apply nodupb_NoDup, (Hcnd _ E).
Qed.

Lemma store_invb_sound s : store_invb s = true -> store_inv s.
Proof.
  unfold store_invb. intros H; apply andb_prop in H as [H1 H2].
  constructor; [apply store_inv_idsb_sound; exact H1|].
  rewrite forallb_forall in H2. intros p c Hc.
  apply getChildren_In_pair in Hc as (l & Hpl & Hc).
  specialize (H2 _ Hpl). rewrite forallb_forall in H2. specialize (H2 _ Hc). cbn in H2.
  destruct (getItem s (id c)) as [c'|]; [|discriminate].
  unfold item_eqb in H2. destruct (TreeStoreItem_eq_dec c' c); [congruence|discriminate].
Qed.


(** ** C6: [getAllParents] *)

(** C6 (as amended). On a store whose parent chains are acyclic,
    [getAllParents(id)] returns: the empty sequence for an unknown [id],
    otherwise the chain [self, parent, grandparent, ...] that stops at the
    first null parent or at the first dangling parent reference; on the
    fixture, [getAllParents(7)] is [7, 4, A, 1]. *)
Theorem getAllParents_chain s i :
  acyclic s ->
  exists n r,
    (forall m, n <= m -> getAllParents m s i = Some r) /\
    (getItem s i = None -> r = []) /\
    (forall it, getItem s i = Some it -> ancestor_chain s it r) /\
    option_map ids (getAllParents 100 fixture (nid 7)) = Some [nid 7; nid 4; idA; nid 1].
Proof.
  intros Hac. exists (S (length (items s))).
  unfold getAllParents. destruct (getItem s i) as [it|] eqn:Hi.
  - destruct (parents_walk_ok s (S (length (items s))) it) as (l & Hc & Hl).
    { intros p _; apply acyclic_stops; exact Hac. }
    exists (it :: l). split; [intros m Hm; apply Hl; exact Hm|].
    split; [discriminate|]. split; [intros it' Heq; injection Heq as <-; exact Hc|].
    vm_compute; reflexivity.
  - exists []. split; [reflexivity|]. split; [reflexivity|]. split; [discriminate|].
    vm_compute; reflexivity.
Qed.

Lemma getAllParents_chain_witness :
  exists n r,
    (forall m, n <= m -> getAllParents m fixture (nid 7) = Some r) /\
    (getItem fixture (nid 7) = None -> r = []) /\
    (forall it, getItem fixture (nid 7) = Some it -> ancestor_chain fixture it r) /\
    option_map ids (getAllParents 100 fixture (nid 7)) = Some [nid 7; nid 4; idA; nid 1].
Proof.
  apply getAllParents_chain. apply acyclicb_sound. vm_compute. reflexivity.
Defined.

Lemma cyclic_store_get1 :
  getItem cyclic_store (nid 1) = Some (item (nid 1) (Some (nid 2)) "a").
Proof. vm_compute; reflexivity. Qed.

Lemma cyclic_store_get2 :
  getItem cyclic_store (nid 2) = Some (item (nid 2) (Some (nid 1)) "b").
Proof. vm_compute; reflexivity. Qed.

Lemma cyclic_store_walk fuel : forall acc,
  parents_walk fuel cyclic_store (item (nid 1) (Some (nid 2)) "a") acc = None /\
  parents_walk fuel cyclic_store (item (nid 2) (Some (nid 1)) "b") acc = None.
Proof.
  induction fuel as [|f IH]; intros acc;
    rewrite (parents_walk_eq _ _ (item (nid 1) (Some (nid 2)) "a")),
      (parents_walk_eq _ _ (item (nid 2) (Some (nid 1)) "b"));
    change (parent (item (nid 1) (Some (nid 2)) "a")) with (Some (nid 2));
    change (parent (item (nid 2) (Some (nid 1)) "b")) with (Some (nid 1));
    cbv beta iota; rewrite cyclic_store_get1, cyclic_store_get2; [split; reflexivity|].
  split; apply IH.
Qed.

(** C6 fails as stated for "every store": the constructor accepts the
    parent cycle 1 -> 2 -> 1, and on it [getAllParents(1)] never returns,
    whatever number of loop iterations is allowed. *)
Lemma getAllParents_cycle_never_returns :
  ~ (exists fuel r, getAllParents fuel cyclic_store (nid 1) = Some r).
Proof.
  intros (fuel & r & H). unfold getAllParents in H. rewrite cyclic_store_get1 in H.
  rewrite (proj1 (cyclic_store_walk fuel _)) in H. discriminate.
Qed.

(** ** The breadth-first loop of [getAllChildren] *)

Lemma bfs_nil f s acc : bfs f s [] acc = Some acc.
Proof. destruct f; reflexivity. Qed.

Lemma bfs_cons f s c rest acc :
  bfs (S f) s (c :: rest) acc = bfs f s (rest ++ getChildren s (id c)) (acc ++ [c]).
Proof. reflexivity. Qed.

(** Dequeuing a prefix [q] of the queue emits [q] and enqueues its children. *)
Lemma bfs_app s q : forall fuel r acc,
  length q <= fuel ->
  bfs fuel s (q ++ r) acc = bfs (fuel - length q) s (r ++ children_of s q) (acc ++ q).
Proof.
  induction q as [|c q IH]; intros fuel r acc Hf.
  - unfold children_of; cbn [flat_map app length]. rewrite Nat.sub_0_r, !app_nil_r.
    reflexivity.
  - destruct fuel as [|f]; [cbn in Hf; lia|]. cbn [app length] in *.
    rewrite bfs_cons, <- app_assoc, IH by lia. cbn [Nat.sub].
    unfold children_of; cbn [flat_map]. rewrite <- !app_assoc. reflexivity.
Qed.

Lemma level_shift s q k : level s (children_of s q) k = level s q (S k).
Proof. induction k as [|k IH]; [reflexivity|]. cbn. rewrite IH. reflexivity. Qed.

Lemma level_seq_shift {B} s q (f : list TreeStoreItem -> B) K :
  map (fun k => f (level s q k)) (seq 1 K) =
  map (fun k => f (level s (children_of s q) k)) (seq 0 K).
Proof.
  rewrite <- seq_shift, map_map. apply map_ext. intros k. rewrite level_shift. reflexivity.
Qed.

(** The loop emits the levels one after the other. *)
Lemma bfs_levels s K : forall q acc fuel,
  level s q K = [] ->
  list_sum (map (fun k => length (level s q k)) (seq 0 K)) <= fuel ->
  bfs fuel s q acc = Some (acc ++ concat (map (level s q) (seq 0 K))).
Proof.
  induction K as [|K IH]; intros q acc fuel HK Hf.
  - cbn in HK. subst q. rewrite bfs_nil. cbn. rewrite app_nil_r. reflexivity.
  - cbn [seq map list_sum concat] in Hf |- *. cbn [level] in Hf |- *.
    change (list_sum (?x :: ?l)) with (x + list_sum l) in Hf.
    rewrite <- (app_nil_r q) at 1. rewrite bfs_app by lia. cbn [app].
    rewrite (level_seq_shift s q (fun l => length l)) in Hf.
    rewrite (level_seq_shift s q (fun l => l)).
    rewrite IH; [rewrite app_assoc; reflexivity| |].
    + rewrite level_shift; exact HK.
    + lia.
Qed.

Lemma bfs_mono s f : forall f' q acc r,
  bfs f s q acc = Some r -> f <= f' -> bfs f' s q acc = Some r.
Proof.
  induction f as [|f IH]; intros f' q acc r H Hle; destruct q as [|c q];
    try (rewrite bfs_nil in H |- *; exact H); [discriminate|].
  destruct f' as [|f']; [lia|]. rewrite bfs_cons in H |- *. apply IH; [exact H|lia].
Qed.

Lemma bfs_det s f1 f2 q acc r1 r2 :
  bfs f1 s q acc = Some r1 -> bfs f2 s q acc = Some r2 -> r1 = r2.
Proof.
  intros H1 H2. apply (bfs_mono _ _ (Nat.max f1 f2)) in H1; [|lia].
  apply (bfs_mono _ _ (Nat.max f1 f2)) in H2; [|lia]. congruence.
Qed.

(** Whatever the store, a returning loop emits its initial queue first. *)
Lemma bfs_prefix s f : forall q acc out,
  bfs f s q acc = Some out -> exists rest, out = acc ++ q ++ rest.
Proof.
  induction f as [|f IH]; intros q acc out H; destruct q as [|c q];
    try rewrite bfs_nil in H.
  - injection H as <-. exists []. rewrite !app_nil_r. reflexivity.
  - discriminate.
  - injection H as <-. exists []. rewrite !app_nil_r. reflexivity.
  - rewrite bfs_cons in H. apply IH in H as (rest & ->).
    exists (getChildren s (id c) ++ rest). rewrite <- !app_assoc. reflexivity.
Qed.

Lemma level_of_nil s k : level s [] k = [].
Proof. induction k as [|k IH]; [reflexivity|]. cbn. rewrite IH. reflexivity. Qed.

Lemma in_ids_flat_map (f : TreeStoreItem -> list TreeStoreItem) l x :
  In x (ids (flat_map f l)) <-> exists c, In c l /\ In x (ids (f c)).
Proof.
  unfold ids. rewrite in_map_iff. split.
  - intros (y & <- & Hy). apply in_flat_map in Hy as (c & Hc & Hy).
    exists c; split; [exact Hc|apply in_map; exact Hy].
  - intros (c & Hc & Hx). apply in_map_iff in Hx as (y & <- & Hy).
    exists y; split; [reflexivity|apply in_flat_map; eauto].
Qed.

Lemma in_ids_concat_levels s q l x :
  In x (ids (concat (map (level s q) l))) <-> exists k, In k l /\ In x (ids (level s q k)).
Proof.
  unfold ids. rewrite concat_map, in_concat. split.
  - intros (L & HL & Hx). rewrite map_map in HL. apply in_map_iff in HL as (k & <- & Hk).
    eauto.
  - intros (k & Hk & Hx). exists (map id (level s q k)). split; [|exact Hx].
    rewrite map_map. apply in_map_iff. eauto.
Qed.

Lemma level_in_children s a k c :
  In c (level s (getChildren s a) k) -> exists p, In c (getChildren s p).
Proof.
  destruct k as [|k]; cbn; [eauto|].
  unfold children_of. intros H. apply in_flat_map in H as (c' & _ & H). eauto.
Qed.

Definition gac_bound (s : TreeStore) (a : Identifier) : nat :=
  list_sum (map (fun k => length (level s (getChildren s a) k)) (seq 0 (length (items s)))).

Definition gac_levels (s : TreeStore) (a : Identifier) : list TreeStoreItem :=
  concat (map (level s (getChildren s a)) (seq 0 (length (items s)))).

Section UnderInvariant.
Variable s : TreeStore.
Hypothesis Hinv : store_inv_ids s.

Lemma children_ids_up x p : In x (ids (getChildren s p)) <-> up s x = Some p.
Proof.
  split.
  - intros H. apply in_map_iff in H as (c & <- & Hc). apply (inv_sound _ Hinv _ _ Hc).
  - apply (inv_complete _ Hinv).
Qed.

Lemma level_ids a k : forall x,
  In x (ids (level s (getChildren s a) k)) <-> iter_up s (S k) x = Some a.
Proof.
  induction k as [|k IH]; intros x.
  - cbn [level]. rewrite children_ids_up. cbn. destruct (up s x); tauto.
  - cbn [level]. unfold children_of. rewrite in_ids_flat_map.
    change (iter_up s (S (S k)) x) with
      (match up s x with Some y => iter_up s (S k) y | None => None end).
    split.
    + intros (c & Hc & Hx). apply children_ids_up in Hx. rewrite Hx.
      apply IH, in_map; exact Hc.
    + destruct (up s x) as [y|] eqn:E; [|discriminate].
      intros Hy. apply IH in Hy. apply in_map_iff in Hy as (c & <- & Hc).
      exists c. split; [exact Hc|apply children_ids_up; exact E].
Qed.

Lemma level_nil a : level s (getChildren s a) (length (items s)) = [].
Proof.
  destruct (level s (getChildren s a) (length (items s))) as [|c t] eqn:E; [reflexivity|].
  exfalso. assert (H : In (id c) (ids (level s (getChildren s a) (length (items s)))))
    by (rewrite E; left; reflexivity).
  apply level_ids in H. apply acyclic_iter_bound in H; [lia|apply (inv_acyclic _ Hinv)].
Qed.

Lemma level_nodup a k : NoDup (ids (level s (getChildren s a) k)).
Proof.
  induction k as [|k IH]; [apply (inv_nodup _ Hinv)|].
  cbn [level]. unfold children_of. generalize dependent (level s (getChildren s a) k).
  intros L HL. induction L as [|c t IHt]; [constructor|].
  cbn [flat_map]. unfold ids in *. rewrite map_app. cbn in HL. apply NoDup_cons_iff in HL as [Hnin Hnd].
  apply NoDup_app; [apply (inv_nodup _ Hinv)|apply IHt; exact Hnd|].
  intros x Hx Hx'. apply children_ids_up in Hx.
  apply (in_ids_flat_map (fun c => getChildren s (id c))) in Hx' as (c' & Hc' & Hx').
  apply children_ids_up in Hx'. rewrite Hx in Hx'. injection Hx' as Hx'.
  apply Hnin. rewrite Hx'. apply in_map; exact Hc'.
Qed.

Lemma levels_nodup a K : forall start,
  NoDup (ids (concat (map (level s (getChildren s a)) (seq start K)))).
Proof.
  induction K as [|K IH]; intros start; [constructor|].
  cbn [seq map concat]. unfold ids in *. rewrite map_app.
  apply NoDup_app; [apply level_nodup|apply IH|].
  intros x Hx Hx'. apply level_ids in Hx.
  apply in_ids_concat_levels in Hx' as (j & Hj & Hx'). apply level_ids in Hx'.
  apply in_seq in Hj. pose proof (iter_up_unique s _ _ _ _ (inv_acyclic _ Hinv) Hx Hx').
  lia.
Qed.

Lemma gac_levels_eq a m :
  gac_bound s a <= m -> getAllChildren m s a = Some (gac_levels s a).
Proof.
  intros Hm. unfold getAllChildren, gac_levels.
  rewrite (bfs_levels s (length (items s))); [reflexivity|apply level_nil|exact Hm].
Qed.

Lemma gac_levels_ids a x : In x (ids (gac_levels s a)) <-> ancestor s x a.
Proof.
  unfold gac_levels. rewrite in_ids_concat_levels, ancestor_iter. split.
  - intros (k & _ & Hk). apply level_ids in Hk. eauto.
  - intros (k & Hk). exists k. split; [|apply level_ids; exact Hk].
    apply in_seq. apply acyclic_iter_bound in Hk; [lia|apply (inv_acyclic _ Hinv)].
Qed.

Lemma gac_result a fuel l : getAllChildren fuel s a = Some l -> l = gac_levels s a.
Proof.
  intros H. apply (bfs_det s fuel (gac_bound s a) (getChildren s a) []); [exact H|].
  apply gac_levels_eq. reflexivity.
Qed.

Lemma gac_ids a fuel l :
  getAllChildren fuel s a = Some l -> forall k, In k (ids l) <-> ancestor s k a.
Proof. intros H k. rewrite (gac_result _ _ _ H). apply gac_levels_ids. Qed.

Lemma unknown_no_children a : getItem s a = None -> getChildren s a = [].
Proof.
  intros Ha. destruct (getChildren s a) as [|c t] eqn:E; [reflexivity|]. exfalso.
  assert (Hc : up s (id c) = Some a) by (apply (inv_sound _ Hinv); rewrite E; left; auto).
  unfold up in Hc. destruct (getItem s (id c)) as [it|] eqn:Hit; [|discriminate].
  pose proof (inv_parent _ Hinv _ _ _ Hit Hc) as Hh. unfold map_has in Hh.
  unfold getItem in Ha. rewrite Ha in Hh. discriminate.
Qed.

End UnderInvariant.

Lemma gac_levels_in_children s a x :
  In x (gac_levels s a) -> exists p, In x (getChildren s p).
Proof.
  unfold gac_levels. intros H. apply in_concat in H as (L & HL & Hx).
  apply in_map_iff in HL as (k & <- & _). eapply level_in_children; exact Hx.
Qed.

Lemma levels_of_nil s K start : concat (map (level s []) (seq start K)) = [].
Proof.
  revert start. induction K as [|K IH]; intros start; [reflexivity|].
  cbn [seq map concat]. rewrite level_of_nil, IH. reflexivity.
Qed.

(** ** C5: [getAllChildren] on a well-formed store *)

(** C5. On every store satisfying the invariants, [getAllChildren] returns
    (for all large enough fuel) the concatenation of the levels of the
    breadth-first traversal seeded with [getChildren a]; the members of level
    [k] are exactly the items whose parent chain reaches [a] in [k+1] steps;
    an item is emitted iff it is stored and [a] is one of its ancestors; no
    id is emitted twice; the result is empty for leaves and unknown ids; on
    the fixture, [getAllChildren 1] is [A; 3; 4; 5; 6; 7; 8]. *)
Theorem getAllChildren_level_order s a (Hinv : store_inv s) :
  exists n out,
    (forall m, n <= m -> getAllChildren m s a = Some out) /\
    out = concat (map (level s (getChildren s a)) (seq 0 (length (items s)))) /\
    (forall k x, In x (level s (getChildren s a) k) <->
                 getItem s (id x) = Some x /\ iter_up s (S k) (id x) = Some a) /\
    (forall x, In x out <-> getItem s (id x) = Some x /\ ancestor s (id x) a) /\
    NoDup (ids out) /\
    (getChildren s a = [] -> out = []) /\
    (getItem s a = None -> out = []) /\
    option_map ids (getAllChildren 100 fixture (nid 1)) =
      Some [idA; nid 3; nid 4; nid 5; nid 6; nid 7; nid 8].
Proof.
  destruct Hinv as [Hids Hrec].
  assert (Hrec' : forall x, (exists p, In x (getChildren s p)) -> getItem s (id x) = Some x)
    by (intros x (p & Hp); exact (Hrec _ _ Hp)).
  assert (Hsame : forall L x, (forall y, In y L -> exists p, In y (getChildren s p)) ->
            getItem s (id x) = Some x -> In (id x) (ids L) -> In x L).
  { intros L x HL Hx Hin. apply in_map_iff in Hin as (y & Hy & HyL).
    pose proof (Hrec' y (HL y HyL)) as Hy'. rewrite Hy, Hx in Hy'.
    injection Hy' as ->. exact HyL. }
  exists (gac_bound s a), (gac_levels s a). split; [|split; [reflexivity|split; [|split; [|split]]]].
  - intros m Hm. apply gac_levels_eq; assumption.
  - intros k x. rewrite <- (level_ids s Hids a k). split.
    + intros Hx. split; [apply Hrec'; eapply level_in_children; exact Hx|].
      apply in_map; exact Hx.
    + intros [Hx Hin]. apply Hsame; [|exact Hx|exact Hin].
      intros y Hy; eapply level_in_children; exact Hy.
  - intros x. rewrite <- (gac_levels_ids s Hids a). split.
    + intros Hx. split; [apply Hrec'; eapply gac_levels_in_children; exact Hx|].
      apply in_map; exact Hx.
    + intros [Hx Hin]. apply Hsame; [|exact Hx|exact Hin].
      intros y Hy; eapply gac_levels_in_children; exact Hy.
  - apply levels_nodup; exact Hids.
  - split; [|split].
    + intros E. unfold gac_levels. rewrite E. apply levels_of_nil.
    + intros E. unfold gac_levels. rewrite (unknown_no_children s Hids a E).
      apply levels_of_nil.
    + vm_compute. reflexivity.
Qed.

Lemma getAllChildren_level_order_witness :
  store_inv fixture /\
  exists n out,
    (forall m, n <= m -> getAllChildren m fixture (nid 1) = Some out) /\
    out = concat (map (level fixture (getChildren fixture (nid 1)))
                      (seq 0 (length (items fixture)))) /\
    (forall k x, In x (level fixture (getChildren fixture (nid 1)) k) <->
                 getItem fixture (id x) = Some x /\
                 iter_up fixture (S k) (id x) = Some (nid 1)) /\
    (forall x, In x out <->
               getItem fixture (id x) = Some x /\ ancestor fixture (id x) (nid 1)) /\
    NoDup (ids out) /\
    (getChildren fixture (nid 1) = [] -> out = []) /\
    (getItem fixture (nid 1) = None -> out = []) /\
    option_map ids (getAllChildren 100 fixture (nid 1)) =
      Some [idA; nid 3; nid 4; nid 5; nid 6; nid 7; nid 8].
Proof.
  split; [apply store_invb_sound; vm_compute; reflexivity|].
  apply getAllChildren_level_order. apply store_invb_sound. vm_compute. reflexivity.
Defined.

(** ** C9: termination of the two loops *)

Lemma looping_children_1 :
  getChildren looping_children_store (nid 1) = [item (nid 2) (Some (nid 1)) "b"].
Proof. vm_compute; reflexivity. Qed.

Lemma looping_children_2 :
  getChildren looping_children_store (nid 2) = [item (nid 1) (Some (nid 2)) "a"].
Proof. vm_compute; reflexivity. Qed.

Lemma looping_bfs fuel : forall acc,
  bfs fuel looping_children_store [item (nid 2) (Some (nid 1)) "b"] acc = None /\
  bfs fuel looping_children_store [item (nid 1) (Some (nid 2)) "a"] acc = None.
Proof.
  induction fuel as [|f IH]; intros acc; [split; reflexivity|].
  rewrite !bfs_cons. cbn [app id item]. rewrite looping_children_1, looping_children_2.
  split; apply IH.
Qed.

(** C9 fails for stores that are only acyclic: in [looping_children_store]
    the stored parent fields form the chain 2 -> 1 -> null, but the child
    lists still hold the record of the first entry for 1 under 2, so the
    queue of [getAllChildren 1] alternates between the records of 2 and 1
    and never empties, whatever number of iterations is allowed. *)
Lemma getAllChildren_acyclic_never_returns :
  acyclic looping_children_store /\
  ~ (exists fuel r, getAllChildren fuel looping_children_store (nid 1) = Some r).
Proof.
  split; [apply acyclicb_sound; vm_compute; reflexivity|].
  intros (fuel & r & H). unfold getAllChildren in H. rewrite looping_children_1 in H.
  rewrite (proj1 (looping_bfs fuel [])) in H. discriminate.
Qed.

(** C9 (amended). The parent walk of [getAllParents] returns, for all large
    enough fuel, on every acyclic store; the queue of [getAllChildren]
    empties, for all large enough fuel, on every store whose child lists
    are the inverse of the stored parent fields (the id-level invariants,
    which include acyclicity). *)
Theorem loops_terminate s i :
  (acyclic s -> exists n r, forall m, n <= m -> getAllParents m s i = Some r) /\
  (store_inv_ids s -> exists n r, forall m, n <= m -> getAllChildren m s i = Some r).
Proof.
  split.
  - intros Hac. exists (S (length (items s))). unfold getAllParents.
    destruct (getItem s i) as [it|].
    + destruct (parents_walk_ok s (S (length (items s))) it) as (l & _ & Hl).
      { intros p _; apply acyclic_stops; exact Hac. }
      exists (it :: l). intros m Hm. apply Hl. exact Hm.
    + exists []. intros m _. reflexivity.
  - intros Hinv. exists (gac_bound s i), (gac_levels s i). intros m Hm.
    apply gac_levels_eq; assumption.
Qed.

Lemma loops_terminate_witness :
  (acyclic fixture /\ exists n r, forall m, n <= m -> getAllParents m fixture (nid 7) = Some r) /\
  (store_inv_ids fixture /\
   exists n r, forall m, n <= m -> getAllChildren m fixture (nid 1) = Some r).
Proof.
  assert (Hinv : store_inv_ids fixture) by (apply store_inv_idsb_sound; vm_compute; reflexivity).
  split; split.
  - apply (inv_acyclic _ Hinv).
  - apply (loops_terminate fixture (nid 7)). apply (inv_acyclic _ Hinv).
  - exact Hinv.
  - apply (loops_terminate fixture (nid 1)). exact Hinv.
Defined.

(** ** C7: [removeItem] *)

Lemma delete_both_getItem k s x :
  getItem (delete_both k s) x = if id_eqb x k then None else getItem s x.
Proof. unfold getItem, delete_both; cbn. apply map_get_delete. Qed.

Lemma delete_both_getChildren k s x :
  getChildren (delete_both k s) x = if id_eqb x k then [] else getChildren s x.
Proof.
  unfold getChildren, delete_both; cbn. rewrite map_get_delete.
  destruct (id_eqb x k); reflexivity.
Qed.

Lemma fold_delete_getChildren l s x :
  getChildren (fold_left (fun st c => delete_both (id c) st) l s) x =
  if existsb (id_eqb x) (ids l) then [] else getChildren s x.
Proof.
  unfold getChildren at 1. rewrite fold_delete_children.
  destruct (existsb _ _); reflexivity.
Qed.

Lemma unlink_getItem p i s x : getItem (unlink_state p i s) x = getItem s x.
Proof. unfold getItem. rewrite unlink_items. reflexivity. Qed.

Lemma remove_state_getItem s it i D k :
  getItem (remove_state s it i D) k =
  if id_eqb k i || existsb (id_eqb k) (ids D) then None else getItem s k.
Proof.
  unfold remove_state. destruct (parent it); [rewrite unlink_getItem|];
    rewrite delete_both_getItem, fold_delete_getItem; destruct (id_eqb k i); reflexivity.
Qed.

Lemma remove_state_getChildren s it i D k :
  getChildren (remove_state s it i D) k =
  if id_eqb k i || existsb (id_eqb k) (ids D) then []
  else if opt_id_eqb (parent it) (Some k) then delete_first i (getChildren s k)
  else getChildren s k.
Proof.
  unfold remove_state. destruct (parent it) as [p|]; cbn [opt_id_eqb].
  - rewrite getChildren_unlink. rewrite (id_eqb_sym p k).
    destruct (id_eqb k p) eqn:E; [apply id_eqb_true in E; subst k|];
      rewrite delete_both_getChildren, fold_delete_getChildren;
      destruct (id_eqb _ i), (existsb _ _); reflexivity.
  - rewrite delete_both_getChildren, fold_delete_getChildren.
    destruct (id_eqb k i), (existsb _ _); reflexivity.
Qed.

(** C7 fails for stores with a repeated child-list entry: in [dup_store]
    identifier 2 is listed twice under 1; [removeItem 2] succeeds and
    deletes 2 from the primary index, but 2 is still in [getChildren 1],
    since only the first matching entry is spliced out. *)
Lemma removeItem_leaves_duplicate_entry :
  fst (removeItem 100 (nid 2) dup_store) = Ok tt /\
  getItem (snd (removeItem 100 (nid 2) dup_store)) (nid 2) = None /\
  ids (getChildren (snd (removeItem 100 (nid 2) dup_store)) (nid 1)) = [nid 2].
Proof. vm_compute. repeat split. Qed.

(** C7 (amended). [removeItem i] never throws. If [i] is absent the store
    is unchanged. Otherwise, whenever [getAllChildren i] returns [D], the
    call succeeds, and afterwards [i] and every member of [D] are absent
    from both indices, and the child list of the parent of [i] (if any)
    loses its first entry with id [i], the other entries keeping their
    order; the other child lists are unchanged. On the fixture,
    [removeItem A] leaves exactly [1; 3], with [getChildren 1 = [3]]. *)
Theorem removeItem_effect fuel s i :
  (forall e s', removeItem fuel i s <> (Err e, s')) /\
  (getItem s i = None -> removeItem fuel i s = (Ok tt, s)) /\
  (forall it D, getItem s i = Some it -> getAllChildren fuel s i = Some D ->
     exists s', removeItem fuel i s = (Ok tt, s') /\
       (forall k, getItem s' k =
          if id_eqb k i || existsb (id_eqb k) (ids D) then None else getItem s k) /\
       (forall k, getChildren s' k =
          if id_eqb k i || existsb (id_eqb k) (ids D) then []
          else if opt_id_eqb (parent it) (Some k) then delete_first i (getChildren s k)
          else getChildren s k)) /\
  (fst (removeItem 100 idA fixture) = Ok tt /\
   ids (getAll (snd (removeItem 100 idA fixture))) = [nid 1; nid 3] /\
   ids (getChildren (snd (removeItem 100 idA fixture)) (nid 1)) = [nid 3]).
Proof.
  split; [|split; [|split]].
  - intros e s'. rewrite removeItem_eq.
    destruct (getItem s i); [destruct (getAllChildren fuel s i)|]; discriminate.
  - intros H. rewrite removeItem_eq, H. reflexivity.
  - intros it D Hit HD. rewrite removeItem_eq, Hit, HD.
    eexists; split; [reflexivity|]. split.
    + intros k; apply remove_state_getItem.
    + intros k; apply remove_state_getChildren.
  - vm_compute. repeat split.
Qed.

Lemma removeItem_effect_witness :
  exists s', removeItem 100 idA fixture = (Ok tt, s') /\
    (forall k, getItem s' k =
       if id_eqb k idA || existsb (id_eqb k) [nid 4; nid 5; nid 6; nid 7; nid 8]
       then None else getItem fixture k).
Proof.
  destruct (proj1 (proj2 (proj2 (removeItem_effect 100 fixture idA)))
              (item idA (Some (nid 1)) "Item 2") [item (nid 4) (Some idA) "Item 4";
               item (nid 5) (Some idA) "Item 5"; item (nid 6) (Some idA) "Item 6";
               item (nid 7) (Some (nid 4)) "Item 7"; item (nid 8) (Some (nid 4)) "Item 8"])
    as (s' & Hs' & Hget & _); [vm_compute; reflexivity|vm_compute; reflexivity|].
  exists s'. split; [exact Hs'|exact Hget].
Defined.

(** ** C8: [updateItem] *)

Lemma update_state_getItem s e u k :
  getItem (update_state s e u) k = if id_eqb k (id u) then Some u else getItem s k.
Proof.
  unfold update_state, getItem, set_items; cbn. rewrite map_get_set.
  destruct (id_eqb k (id u)); [reflexivity|].
  destruct (negb _); [|reflexivity].
  destruct (parent e), (parent u); cbn; rewrite ?unlink_items; reflexivity.
Qed.

Lemma update_state_getChildren s e u k :
  getChildren (update_state s e u) k =
  if opt_id_eqb (parent e) (parent u) then getChildren s k
  else (if opt_id_eqb (parent e) (Some k) then delete_first (id u) (getChildren s k)
        else getChildren s k) ++
       (if opt_id_eqb (parent u) (Some k) then [u] else []).
Proof.
  unfold update_state. change (getChildren (set_items ?f ?x) k) with (getChildren x k).
  destruct (opt_id_eqb (parent e) (parent u)) eqn:H; cbn [negb]; [reflexivity|].
  destruct (parent e) as [op|], (parent u) as [np|]; cbn [opt_id_eqb] in H |- *.
  - rewrite getChildren_push, !getChildren_unlink, (id_eqb_sym op k), (id_eqb_sym np k).
    id_destr k np.
    + rewrite (id_eqb_sym np op). destruct (id_eqb op np) eqn:E'; [discriminate|].
      reflexivity.
    + rewrite app_nil_r. id_destr k op; reflexivity.
  - rewrite getChildren_unlink, app_nil_r, (id_eqb_sym op k). id_destr k op; reflexivity.
  - rewrite getChildren_push, (id_eqb_sym np k). id_destr k np; rewrite ?app_nil_r; reflexivity.
  - discriminate.
Qed.

(** C8. When [updateItem u] passes validation ([u.id] is stored and a
    non-null [u.parent] is stored and does not create a cycle), the call
    succeeds; afterwards the record stored under [u.id] is [u] itself and
    the other records are unchanged; if the parent did not change the child
    lists are unchanged, otherwise the first entry with id [u.id] is spliced
    out of the old parent's list and [u] is appended to the new parent's
    list, the other entries keeping their order. On the fixture, moving 3
    from 1 to A leaves [getChildren 1 = [A]] and [getChildren A = [4; 5; 6; 3]]. *)
Theorem updateItem_effect fuel s u e :
  getItem s (id u) = Some e ->
  (forall p, parent u = Some p ->
     map_has (items s) p = true /\ wouldCreateCircularReference fuel s (id u) p = Some false) ->
  exists s', updateItem fuel u s = (Ok tt, s') /\
    (forall k, getItem s' k = if id_eqb k (id u) then Some u else getItem s k) /\
    (opt_id_eqb (parent e) (parent u) = true -> forall k, getChildren s' k = getChildren s k) /\
    (opt_id_eqb (parent e) (parent u) = false -> forall k, getChildren s' k =
       (if opt_id_eqb (parent e) (Some k) then delete_first (id u) (getChildren s k)
        else getChildren s k) ++
       (if opt_id_eqb (parent u) (Some k) then [u] else [])) /\
    (fst (updateItem 100 (item (nid 3) (Some idA) "Item 3 moved") fixture) = Ok tt /\
     ids (getChildren (snd (updateItem 100 (item (nid 3) (Some idA) "Item 3 moved") fixture))
            (nid 1)) = [idA] /\
     ids (getChildren (snd (updateItem 100 (item (nid 3) (Some idA) "Item 3 moved") fixture))
            idA) = [nid 4; nid 5; nid 6; nid 3]).
Proof.
  intros He Hv. exists (update_state s e u). split.
  - rewrite updateItem_eq, He. destruct (parent u) as [p|] eqn:Hp; [|reflexivity].
    destruct (Hv p eq_refl) as [Hh Hw]. rewrite Hh, Hw. reflexivity.
  - split; [intros k; apply update_state_getItem|].
    split; [intros H k; rewrite update_state_getChildren, H; reflexivity|].
    split; [intros H k; rewrite update_state_getChildren, H; reflexivity|].
    vm_compute. repeat split.
Qed.

Lemma updateItem_effect_witness :
  exists s', updateItem 100 (item (nid 3) (Some idA) "Item 3 moved") fixture = (Ok tt, s') /\
    (forall k, getItem s' k =
       if id_eqb k (nid 3) then Some (item (nid 3) (Some idA) "Item 3 moved")
       else getItem fixture k).
Proof.
  destruct (updateItem_effect 100 fixture (item (nid 3) (Some idA) "Item 3 moved")
              (item (nid 3) (Some (nid 1)) "Item 3")) as (s' & Hs' & Hget & _).
  - vm_compute. reflexivity.
  - intros p Hp. injection Hp as <-. split; vm_compute; reflexivity.
  - exists s'. split; [exact Hs'|exact Hget].
Defined.

(** ** C10: duplicate identifiers in the input of the constructor *)

Lemma map_set_In {V} (m : JsMap V) k v k' v' :
  In (k', v') (map_set m k v) -> In (k', v') m \/ (k', v') = (k, v).
Proof.
  induction m as [|[k0 v0] t IH]; cbn; [intros [H|[]]; auto|].
  id_destr k k0; cbn.
  - intros [H|H]; [injection H as <- <-; auto|auto].
  - intros [H|H]; [auto|]. destruct (IH H); auto.
Qed.

Lemma map_set_nodup {V} (m : JsMap V) k v :
  NoDup (map fst m) -> NoDup (map fst (map_set m k v)).
Proof.
  intros H. destruct (map_get m k) eqn:E.
  - rewrite map_fst_set_old by congruence. exact H.
  - rewrite map_fst_set_new by exact E. apply NoDup_app; [exact H|repeat constructor; auto|].
    intros x Hx [<-|[]]. apply map_get_None in E. contradiction.
Qed.

Lemma fold_set_get l : forall m k,
  map_get (fold_left (fun m item => map_set m (id item) item) l m) k =
  match last_with_id k l with Some y => Some y | None => map_get m k end.
Proof.
  induction l as [|x t IH]; intros m k; [reflexivity|].
  cbn [fold_left last_with_id]. rewrite IH, map_get_set, (id_eqb_sym (id x) k).
  destruct (last_with_id k t); [reflexivity|]. destruct (id_eqb k (id x)); reflexivity.
Qed.

Lemma fold_set_keyed l : forall m,
  (NoDup (map fst m) /\ forall k v, In (k, v) m -> id v = k) ->
  let m' := fold_left (fun m item => map_set m (id item) item) l m in
  NoDup (map fst m') /\ forall k v, In (k, v) m' -> id v = k.
Proof.
  induction l as [|x t IH]; intros m [Hnd Hk]; [split; assumption|].
  cbn [fold_left]. apply IH. split; [apply map_set_nodup; exact Hnd|].
  intros k v Hin. apply map_set_In in Hin as [Hin|Hin]; [apply Hk; exact Hin|].
  injection Hin as -> ->. reflexivity.
Qed.

Lemma ids_values_keyed (m : JsMap TreeStoreItem) :
  (forall k v, In (k, v) m -> id v = k) -> ids (map_values m) = map fst m.
Proof.
  unfold ids, map_values. induction m as [|[k v] t IH]; intros Hk; [reflexivity|].
  cbn. rewrite (Hk k v (or_introl eq_refl)), IH; [reflexivity|].
  intros k' v' Hin. apply Hk. right. exact Hin.
Qed.

Definition children_of_map (cm : JsMap (list TreeStoreItem)) (p : Identifier) :=
  match map_get cm p with Some l => l | None => [] end.

Lemma fold_push_children l : forall cm p,
  children_of_map (fold_left (fun cm item =>
                       match parent item with
                       | Some parentId => push_child cm parentId item
                       | None => cm
                       end) l cm) p =
  children_of_map cm p ++ filter (is_child_of p) l.
Proof.
  induction l as [|x t IH]; intros cm p; [rewrite app_nil_r; reflexivity|].
  cbn [fold_left filter]. rewrite IH.
  change (is_child_of p x) with (opt_id_eqb (parent x) (Some p)).
  destruct (parent x) as [q|]; cbn [opt_id_eqb].
  - unfold children_of_map at 1, push_child. rewrite map_get_set, (id_eqb_sym q p).
    id_destr p q.
    + unfold children_of_map. rewrite <- app_assoc. reflexivity.
    + reflexivity.
  - reflexivity.
Qed.

Definition count_id (k : Identifier) (l : list TreeStoreItem) : nat :=
  length (filter (fun it => id_eqb (id it) k) l).

(** C10 fails for nested duplicates: with 2 listed twice under 1 and 3
    listed twice under 2, identifier 3 occurs twice in the input and twice
    in [getChildren 2], but four times in [getAllChildren 1], since each of
    the two records of 2 contributes the whole child list of 2. *)
Lemma initialize_nested_duplicates :
  count_id (nid 3) dup_subtree_input = 2 /\
  count_id (nid 3) (getChildren (initialize dup_subtree_input) (nid 2)) = 2 /\
  option_map (count_id (nid 3)) (getAllChildren 100 (initialize dup_subtree_input) (nid 1)) =
    Some 4.
Proof. vm_compute. repeat split. Qed.

Lemma initialize_duplicates_facts l :
  (forall k, getItem (initialize l) k = last_with_id k l) /\
  (forall p, getChildren (initialize l) p = filter (is_child_of p) l).
Proof.
  split.
  - intros k. unfold getItem, initialize; cbn [items]. rewrite fold_set_get.
    destruct (last_with_id k l); reflexivity.
  - intros p. unfold initialize, getChildren; cbn [childrenMap].
    change (match map_get ?x p with Some l => l | None => [] end) with (children_of_map x p).
    rewrite fold_push_children. reflexivity.
Qed.

(** C10 (amended). For every input list [l] of the constructor: the
    primary index holds, under each identifier, the last entry of [l] with
    that identifier, and [getAll] reports each identifier once; the child
    list of [p] is the list of the entries of [l] whose parent is [p], one
    per occurrence and in input order; and [getAllChildren p], when it
    returns, begins with that child list. *)
Theorem initialize_duplicates l :
  (forall k, getItem (initialize l) k = last_with_id k l) /\
  NoDup (ids (getAll (initialize l))) /\
  (forall p, getChildren (initialize l) p = filter (is_child_of p) l) /\
  (forall p fuel out, getAllChildren fuel (initialize l) p = Some out ->
     exists rest, out = filter (is_child_of p) l ++ rest).
Proof.
  assert (Hch : forall p, getChildren (initialize l) p = filter (is_child_of p) l).
  { intros p. unfold initialize, getChildren; cbn [childrenMap].
    change (match map_get ?x p with Some l => l | None => [] end) with (children_of_map x p).
    rewrite fold_push_children. reflexivity. }
  split; [|split; [|split; [exact Hch|]]].
  - intros k. unfold getItem, initialize; cbn [items]. rewrite fold_set_get.
    destruct (last_with_id k l); reflexivity.
  - destruct (fold_set_keyed l []) as [Hnd Hk];
      [split; [constructor|intros k v []]|].
    unfold getAll, initialize; cbn [items]. rewrite ids_values_keyed by exact Hk.
    exact Hnd.
  - intros p fuel out H. unfold getAllChildren in H. apply bfs_prefix in H as (rest & ->).
    exists rest. rewrite Hch. reflexivity.
Qed.

Lemma initialize_duplicates_witness :
  getAllChildren 100 (initialize dup_subtree_input) (nid 1) =
    Some [item (nid 2) (Some (nid 1)) "b"; item (nid 2) (Some (nid 1)) "b";
          item (nid 3) (Some (nid 2)) "c"; item (nid 3) (Some (nid 2)) "c";
          item (nid 3) (Some (nid 2)) "c"; item (nid 3) (Some (nid 2)) "c"] /\
  exists rest,
    [item (nid 2) (Some (nid 1)) "b"; item (nid 2) (Some (nid 1)) "b";
     item (nid 3) (Some (nid 2)) "c"; item (nid 3) (Some (nid 2)) "c";
     item (nid 3) (Some (nid 2)) "c"; item (nid 3) (Some (nid 2)) "c"] =
    filter (is_child_of (nid 1)) dup_subtree_input ++ rest.
Proof.
  assert (H : getAllChildren 100 (initialize dup_subtree_input) (nid 1) =
    Some [item (nid 2) (Some (nid 1)) "b"; item (nid 2) (Some (nid 1)) "b";
          item (nid 3) (Some (nid 2)) "c"; item (nid 3) (Some (nid 2)) "c";
          item (nid 3) (Some (nid 2)) "c"; item (nid 3) (Some (nid 2)) "c"])
    by (vm_compute; reflexivity).
  split; [exact H|].
  exact (proj2 (proj2 (proj2 (initialize_duplicates dup_subtree_input))) (nid 1) 100 _ H).
Defined.

(** ** C1: the record kept in the child list after [updateItem] *)

(** C1. On the fixture, [updateItem] with a new label for 3 and the same
    parent 1 succeeds and stores the new record, but [getChildren 1] still
    holds the record of 3 with the old label: the child list is only
    rewritten when the parent changes. *)
Lemma updateItem_keeps_stale_child_record :
  fst (updateItem 100 (item (nid 3) (Some (nid 1)) "Item 3 renamed") fixture) = Ok tt /\
  getItem (snd (updateItem 100 (item (nid 3) (Some (nid 1)) "Item 3 renamed") fixture)) (nid 3)
    = Some (item (nid 3) (Some (nid 1)) "Item 3 renamed") /\
  getChildren (snd (updateItem 100 (item (nid 3) (Some (nid 1)) "Item 3 renamed") fixture))
    (nid 1) = [item idA (Some (nid 1)) "Item 2"; item (nid 3) (Some (nid 1)) "Item 3"].
Proof. vm_compute. repeat split. Qed.

(** ** C2: the invariants are preserved by successful calls *)

Lemma map_has_getItem s p : map_has (items s) p = true <-> getItem s p <> None.
Proof. unfold map_has, getItem. destruct (map_get (items s) p); split; congruence. Qed.

Lemma iter_up_none_mono s m m' x :
  iter_up s m x = None -> m <= m' -> iter_up s m' x = None.
Proof.
  intros H Hle. replace m' with (m + (m' - m)) by lia. rewrite iter_up_add, H. reflexivity.
Qed.

Lemma iter_up_cycle s k x :
  iter_up s (S k) x = Some x -> forall j, iter_up s (j * S k) x = Some x.
Proof.
  intros H j. induction j as [|j IH]; [reflexivity|].
  change (S j * S k) with (S k + j * S k). rewrite iter_up_add, H. exact IH.
Qed.

(** A store all of whose parent walks stop is acyclic. *)
Lemma terminating_acyclic s :
  (forall x, exists m, iter_up s m x = None) -> acyclic s.
Proof.
  intros Ht x Hx. apply ancestor_iter in Hx as (k & Hk). destruct (Ht x) as (m & Hm).
  pose proof (iter_up_cycle s k x Hk m) as Hc.
  rewrite (iter_up_none_mono s m (m * S k) x Hm) in Hc; [discriminate|nia].
Qed.

Lemma ancestor_sub s s' x y :
  (forall a b, up s' a = Some b -> up s a = Some b) -> ancestor s' x y -> ancestor s x y.
Proof.
  intros Hsub H. induction H as [x y H|x y z _ IH1 _ IH2].
  - constructor. apply Hsub; exact H.
  - eapply t_trans; eassumption.
Qed.

Lemma sub_acyclic s s' :
  acyclic s -> (forall a b, up s' a = Some b -> up s a = Some b) -> acyclic s'.
Proof. intros Hac Hsub x Hx. apply (Hac x). eapply ancestor_sub; eassumption. Qed.

(** The walk from [x] is deterministic: the first step of every path is
    the parent of [x]. *)
Lemma ancestor_first_step s x y z :
  ancestor s x y -> up s x = Some z -> z = y \/ ancestor s z y.
Proof.
  intros H. apply clos_trans_t1n in H. destruct H as [y H|y w H Hrest]; intros Hz.
  - left. congruence.
  - right. rewrite Hz in H. injection H as <-. apply clos_t1n_trans. exact Hrest.
Qed.

(** Changing the parent of a single node [n] to [np] keeps the store
    acyclic when [np] is not [n] nor one of its descendants. *)
Section Reparent.
Variables s s' : TreeStore.
Variable n : Identifier.
Variable np : option Identifier.
Hypothesis Hac : acyclic s.
Hypothesis Hother : forall x, x <> n -> up s' x = up s x.
Hypothesis Hn : up s' n = np.
Hypothesis Hnp : forall q, np = Some q -> q <> n /\ ~ ancestor s q n.

Lemma avoid_same m : forall x,
  x <> n -> ~ ancestor s x n -> iter_up s' m x = iter_up s m x.
Proof.
  induction m as [|m IH]; intros x Hx Hanc; [reflexivity|].
  cbn. rewrite (Hother x Hx). destruct (up s x) as [z|] eqn:E; [|reflexivity].
  apply IH.
  - intros ->. apply Hanc. constructor. exact E.
  - intros Hz. apply Hanc. eapply t_trans; [constructor; exact E|exact Hz].
Qed.

Lemma reparented_stops : exists m, iter_up s' m n = None.
Proof.
  destruct np as [q|] eqn:E.
  - destruct (Hnp q eq_refl) as [Hq1 Hq2]. exists (S (S (length (items s)))).
    cbn [iter_up]. rewrite Hn. change (iter_up s' (S (length (items s))) q = None).
    rewrite avoid_same by assumption. apply acyclic_stops; exact Hac.
  - exists 1. cbn. rewrite Hn. reflexivity.
Qed.

Lemma reparent_acyclic : acyclic s'.
Proof.
  apply terminating_acyclic. intros x.
  pose proof (acyclic_stops s x Hac) as Hx. revert x Hx.
  generalize (S (length (items s))) as m. induction m as [|m IH]; intros x Hx;
    [discriminate|].
  destruct (Identifier_eq_dec x n) as [->|Hne]; [apply reparented_stops|].
  cbn in Hx. destruct (up s x) as [z|] eqn:E.
  - destruct (IH z Hx) as (m' & Hm'). exists (S m'). cbn. rewrite (Hother x Hne), E.
    exact Hm'.
  - exists 1. cbn. rewrite (Hother x Hne), E. reflexivity.
Qed.

End Reparent.

Lemma ancestor_target_stored s x y :
  store_inv_ids s -> ancestor s x y -> getItem s y <> None.
Proof.
  intros Hinv H. induction H as [x y H|x y z _ _ _ IH]; [|exact IH].
  unfold up in H. destruct (getItem s x) as [it|] eqn:E; [|discriminate].
  apply map_has_getItem. exact (inv_parent _ Hinv _ _ _ E H).
Qed.

Lemma ancestor_source_stored s x y : ancestor s x y -> getItem s x <> None.
Proof.
  intros H. apply clos_trans_t1n in H. destruct H as [y H|y w H _];
    unfold up in H; destruct (getItem s x); congruence.
Qed.

(** The first entry with a given id, removed by [splice]. *)
Lemma delete_first_incl i l c : In c (delete_first i l) -> In c l.
Proof.
  induction l as [|x t IH]; cbn; [tauto|].
  destruct (id_eqb (id x) i); [auto|]. intros [H|H]; auto.
Qed.

Lemma delete_first_keep i l x : In x (ids l) -> x <> i -> In x (ids (delete_first i l)).
Proof.
  induction l as [|c t IH]; cbn; [tauto|]. intros [H|H] Hne.
  - subst x. destruct (id_eqb (id c) i) eqn:E; [apply id_eqb_true in E; congruence|].
    left; reflexivity.
  - destruct (id_eqb (id c) i); [exact H|right; apply IH; assumption].
Qed.

Lemma delete_first_nodup i l : NoDup (ids l) -> NoDup (ids (delete_first i l)).
Proof.
  induction l as [|c t IH]; cbn; [auto|]. intros H. apply NoDup_cons_iff in H as [Hn Hd].
  destruct (id_eqb (id c) i); [exact Hd|]. cbn. constructor; [|apply IH; exact Hd].
  intros Hin. apply Hn. unfold ids in *. apply in_map_iff in Hin as (y & Hy & Hin).
  rewrite <- Hy. apply in_map. apply (delete_first_incl i). exact Hin.
Qed.

Lemma delete_first_removes i l : NoDup (ids l) -> ~ In i (ids (delete_first i l)).
Proof.
  induction l as [|c t IH]; cbn; [tauto|]. intros H. apply NoDup_cons_iff in H as [Hn Hd].
  destruct (id_eqb (id c) i) eqn:E.
  - apply id_eqb_true in E. subst i. exact Hn.
  - apply id_eqb_false in E. cbn. intros [H|H]; [congruence|]. apply (IH Hd H).
Qed.

Lemma inv_sound_ids s p x :
  store_inv_ids s -> In x (ids (getChildren s p)) -> up s x = Some p.
Proof.
  intros Hinv H. apply in_map_iff in H as (c & <- & Hc). exact (inv_sound _ Hinv _ _ Hc).
Qed.

Lemma items_add s it : items (add_state s it) = map_set (items s) (id it) it.
Proof. unfold add_state. destruct (parent it); reflexivity. Qed.

Lemma add_preserves s it :
  store_inv_ids s -> getItem s (id it) = None ->
  (forall p, parent it = Some p -> getItem s p <> None) ->
  store_inv_ids (add_state s it).
Proof.
  intros Hinv Hnew Hpar.
  assert (Hnew' : map_has (items s) (id it) = false)
    by (unfold map_has; unfold getItem in Hnew; rewrite Hnew; reflexivity).
  destruct (add_state_effect s it Hnew') as (Hg1 & Hg2 & _ & Hch).
  set (s' := add_state s it) in *.
  assert (Hup : forall x, x <> id it -> up s' x = up s x)
    by (intros x Hx; unfold up; rewrite (Hg2 x Hx); reflexivity).
  assert (Hupn : up s' (id it) = parent it) by (unfold up; rewrite Hg1; reflexivity).
  assert (Hnochild : forall p, ~ In (id it) (ids (getChildren s p))).
  { intros p H. apply (inv_sound_ids s p _ Hinv) in H. unfold up in H. rewrite Hnew in H.
    discriminate. }
  constructor.
  - unfold s'. rewrite items_add. apply map_set_nodup. apply (inv_nodup_items _ Hinv).
  - intros k x Hk. destruct (Identifier_eq_dec k (id it)) as [->|Hne].
    + rewrite Hg1 in Hk. congruence.
    + rewrite (Hg2 k Hne) in Hk. exact (inv_keys _ Hinv _ _ Hk).
  - intros k x p Hk Hp. apply map_has_getItem.
    destruct (Identifier_eq_dec p (id it)) as [->|Hpne]; [rewrite Hg1; discriminate|].
    rewrite (Hg2 p Hpne). destruct (Identifier_eq_dec k (id it)) as [->|Hne].
    + rewrite Hg1 in Hk. injection Hk as <-. apply Hpar; exact Hp.
    + rewrite (Hg2 k Hne) in Hk. apply map_has_getItem. exact (inv_parent _ Hinv _ _ _ Hk Hp).
  - apply (reparent_acyclic s s' (id it) (parent it) (inv_acyclic _ Hinv) Hup Hupn).
    intros q Hq. split.
    + intros ->. exact (Hpar _ Hq Hnew).
    + intros Ha. exact (ancestor_target_stored s _ _ Hinv Ha Hnew).
  - intros p c Hc. rewrite Hch in Hc. destruct (is_child_of p it) eqn:Ec.
    + apply in_app_or in Hc as [Hc|[<-|[]]].
      * rewrite Hup; [exact (inv_sound _ Hinv _ _ Hc)|].
        intros E. apply (Hnochild p). rewrite <- E. apply in_map. exact Hc.
      * rewrite Hupn. apply is_child_of_eq. exact Ec.
    + rewrite Hup; [exact (inv_sound _ Hinv _ _ Hc)|].
      intros E. apply (Hnochild p). rewrite <- E. apply in_map. exact Hc.
  - intros k p Hk. rewrite Hch. destruct (Identifier_eq_dec k (id it)) as [->|Hne].
    + rewrite Hupn in Hk. apply is_child_of_eq in Hk. rewrite Hk.
      unfold ids. rewrite map_app. apply in_or_app. right. left. reflexivity.
    + rewrite (Hup k Hne) in Hk. apply (inv_complete _ Hinv) in Hk.
      destruct (is_child_of p it); [|exact Hk].
      unfold ids in *. rewrite map_app. apply in_or_app. left. exact Hk.
  - intros p. rewrite Hch. destruct (is_child_of p it); [|apply (inv_nodup _ Hinv)].
    unfold ids. rewrite map_app. apply NoDup_app; [apply (inv_nodup _ Hinv)|repeat constructor; auto|].
    intros x Hx [<-|[]]. exact (Hnochild p Hx).
Qed.

Lemma items_update s e u : items (update_state s e u) = map_set (items s) (id u) u.
Proof.
  unfold update_state, set_items; cbn. f_equal. destruct (negb _); [|reflexivity].
  destruct (parent e), (parent u); cbn; rewrite ?unlink_items; reflexivity.
Qed.

Lemma update_preserves s e u :
  store_inv_ids s -> getItem s (id u) = Some e ->
  (forall q, parent u = Some q -> getItem s q <> None /\ q <> id u /\ ~ ancestor s q (id u)) ->
  store_inv_ids (update_state s e u).
Proof.
  intros Hinv He Hpar. set (s' := update_state s e u).
  assert (Hg1 : getItem s' (id u) = Some u)
    by (unfold s'; rewrite update_state_getItem, id_eqb_refl; reflexivity).
  assert (Hg2 : forall k, k <> id u -> getItem s' k = getItem s k).
  { intros k Hk. unfold s'. rewrite update_state_getItem.
    rewrite (proj2 (id_eqb_false _ _) Hk). reflexivity. }
  assert (Hch := update_state_getChildren s e u). fold s' in Hch.
  assert (Hup : forall x, x <> id u -> up s' x = up s x)
    by (intros x Hx; unfold up; rewrite (Hg2 x Hx); reflexivity).
  assert (Hupn : up s' (id u) = parent u) by (unfold up; rewrite Hg1; reflexivity).
  assert (Hupe : up s (id u) = parent e) by (unfold up; rewrite He; reflexivity).
  assert (Hin0 : forall c A p, In c A ->
            A = (if opt_id_eqb (parent e) (Some p) then delete_first (id u) (getChildren s p)
                 else getChildren s p) -> In c (getChildren s p)).
  { intros c A p Hc ->. destruct (opt_id_eqb (parent e) (Some p));
      [eapply delete_first_incl; exact Hc|exact Hc]. }
  constructor.
  - unfold s'. rewrite items_update. apply map_set_nodup. apply (inv_nodup_items _ Hinv).
  - intros k x Hk. destruct (Identifier_eq_dec k (id u)) as [->|Hne].
    + rewrite Hg1 in Hk. congruence.
    + rewrite (Hg2 k Hne) in Hk. exact (inv_keys _ Hinv _ _ Hk).
  - intros k x p Hk Hp. apply map_has_getItem.
    destruct (Identifier_eq_dec p (id u)) as [->|Hpne]; [rewrite Hg1; discriminate|].
    rewrite (Hg2 p Hpne). destruct (Identifier_eq_dec k (id u)) as [->|Hne].
    + rewrite Hg1 in Hk. injection Hk as <-. apply (Hpar _ Hp).
    + rewrite (Hg2 k Hne) in Hk. apply map_has_getItem. exact (inv_parent _ Hinv _ _ _ Hk Hp).
  - apply (reparent_acyclic s s' (id u) (parent u) (inv_acyclic _ Hinv) Hup Hupn).
    intros q Hq. destruct (Hpar q Hq) as (_ & H1 & H2). split; assumption.
  - intros p c Hc. rewrite Hch in Hc. destruct (opt_id_eqb (parent e) (parent u)) eqn:Eq.
    + apply opt_id_eqb_true in Eq. pose proof (inv_sound _ Hinv _ _ Hc) as Hs.
      destruct (Identifier_eq_dec (id c) (id u)) as [E|Hne].
      * rewrite E in Hs |- *. rewrite Hupn, <- Eq, <- Hupe. exact Hs.
      * rewrite (Hup _ Hne). exact Hs.
    + apply in_app_or in Hc as [Hc|Hc].
      * pose proof (inv_sound _ Hinv _ _ (Hin0 _ _ p Hc eq_refl)) as Hs.
        destruct (Identifier_eq_dec (id c) (id u)) as [E|Hne].
        -- exfalso. rewrite E, Hupe in Hs. rewrite Hs in Hc. cbn [opt_id_eqb] in Hc.
           rewrite id_eqb_refl in Hc.
           apply (delete_first_removes (id u) (getChildren s p) (inv_nodup _ Hinv p)).
           apply in_map_iff. exists c. split; [exact E|exact Hc].
        -- rewrite (Hup _ Hne). exact Hs.
      * destruct (opt_id_eqb (parent u) (Some p)) eqn:Ep; [|destruct Hc].
        destruct Hc as [<-|[]]. rewrite Hupn. apply opt_id_eqb_true in Ep. exact Ep.
  - intros k p Hk. rewrite Hch. destruct (Identifier_eq_dec k (id u)) as [->|Hne].
    + rewrite Hupn in Hk. destruct (opt_id_eqb (parent e) (parent u)) eqn:Eq.
      * apply opt_id_eqb_true in Eq. apply (inv_complete _ Hinv). rewrite Hupe, Eq. exact Hk.
      * rewrite Hk. cbn [opt_id_eqb]. rewrite id_eqb_refl. unfold ids. rewrite map_app.
        apply in_or_app. right. left. reflexivity.
    + rewrite (Hup k Hne) in Hk. apply (inv_complete _ Hinv) in Hk.
      destruct (opt_id_eqb (parent e) (parent u)); [exact Hk|].
      unfold ids. rewrite map_app. apply in_or_app. left.
      destruct (opt_id_eqb (parent e) (Some p)); [apply delete_first_keep; assumption|exact Hk].
  - intros p. rewrite Hch. destruct (opt_id_eqb (parent e) (parent u)) eqn:Eq;
      [apply (inv_nodup _ Hinv)|].
    unfold ids. rewrite map_app. apply NoDup_app.
    + destruct (opt_id_eqb (parent e) (Some p));
        [apply delete_first_nodup|]; apply (inv_nodup _ Hinv).
    + destruct (opt_id_eqb (parent u) (Some p)); cbn; [constructor; [intros []|constructor]|constructor].
    + intros x Hx Hx'. destruct (opt_id_eqb (parent u) (Some p)) eqn:Ep; [|destruct Hx'].
      destruct Hx' as [<-|[]]. apply in_map_iff in Hx as (c & Hc & HcA).
      pose proof (inv_sound _ Hinv _ _ (Hin0 _ _ p HcA eq_refl)) as Hs.
      rewrite Hc, Hupe in Hs. apply opt_id_eqb_true in Ep. rewrite Hs, Ep in Eq.
      cbn in Eq. rewrite id_eqb_refl in Eq. discriminate.
Qed.

Lemma filter_fst_nodup {V} (f : Identifier * V -> bool) (m : JsMap V) :
  NoDup (map fst m) -> NoDup (map fst (filter f m)).
Proof.
  induction m as [|[k v] t IH]; cbn; [auto|]. intros H.
  apply NoDup_cons_iff in H as [Hn Hd]. destruct (f (k, v)); cbn; [|auto].
  constructor; [|auto]. intros Hin. apply Hn.
  apply in_map_iff in Hin as ([k' v'] & Hk & Hin'). apply filter_In in Hin' as [Hin' _].
  cbn in Hk. subst k'. apply (in_map fst) in Hin'. exact Hin'.
Qed.

Lemma fold_delete_items_nodup D : forall st,
  NoDup (map fst (items st)) ->
  NoDup (map fst (items (fold_left (fun st c => delete_both (id c) st) D st))).
Proof.
  induction D as [|c t IH]; cbn; [auto|]. intros st H. apply IH.
  unfold delete_both, map_delete; cbn. apply filter_fst_nodup. exact H.
Qed.

Lemma remove_items_nodup s it i D :
  NoDup (map fst (items s)) -> NoDup (map fst (items (remove_state s it i D))).
Proof.
  intros H. unfold remove_state. destruct (parent it); [rewrite unlink_items|];
    change (items (delete_both i ?x)) with (map_delete (items x) i);
    apply filter_fst_nodup; apply fold_delete_items_nodup; exact H.
Qed.

Lemma remove_preserves s it i D fuel :
  store_inv_ids s -> getItem s i = Some it -> getAllChildren fuel s i = Some D ->
  store_inv_ids (remove_state s it i D).
Proof.
  intros Hinv Hit HD. set (s' := remove_state s it i D).
  pose (del := fun k => id_eqb k i || existsb (id_eqb k) (ids D)).
  assert (Hdel : forall k, del k = true <-> k = i \/ ancestor s k i).
  { intros k. unfold del. rewrite orb_true_iff, id_eqb_true, existsb_id_In.
    rewrite (gac_ids s Hinv i fuel D HD). reflexivity. }
  assert (Hg : forall k, getItem s' k = if del k then None else getItem s k)
    by (intros k; apply remove_state_getItem).
  assert (Hch : forall k, getChildren s' k =
            if del k then []
            else if opt_id_eqb (parent it) (Some k) then delete_first i (getChildren s k)
            else getChildren s k)
    by (intros k; apply remove_state_getChildren).
  assert (Hup' : forall x y, up s' x = Some y -> del x = false /\ up s x = Some y).
  { intros x y. unfold up. rewrite Hg. destruct (del x); [discriminate|auto]. }
  assert (Hupi : up s i = parent it) by (unfold up; rewrite Hit; reflexivity).
  assert (Hdel_par : forall k p, del k = false -> up s k = Some p -> del p = false).
  { intros k p Hk Hp. destruct (del p) eqn:Ep; [|reflexivity]. exfalso.
    apply Hdel in Ep. assert (Hk' : del k = true); [|congruence].
    apply Hdel. right. destruct Ep as [->|Ea]; [constructor; exact Hp|].
    eapply t_trans; [constructor; exact Hp|exact Ea]. }
  constructor.
  - apply remove_items_nodup. apply (inv_nodup_items _ Hinv).
  - intros k x Hk. rewrite Hg in Hk. destruct (del k); [discriminate|].
    exact (inv_keys _ Hinv _ _ Hk).
  - intros k x p Hk Hp. rewrite Hg in Hk. destruct (del k) eqn:Ek; [discriminate|].
    assert (Hu : up s k = Some p) by (unfold up; rewrite Hk; exact Hp).
    apply map_has_getItem. rewrite Hg, (Hdel_par k p Ek Hu).
    apply map_has_getItem. exact (inv_parent _ Hinv _ _ _ Hk Hp).
  - apply (sub_acyclic s s' (inv_acyclic _ Hinv)). intros a b H. apply Hup' in H. tauto.
  - intros p c Hc. rewrite Hch in Hc. destruct (del p) eqn:Ep; [destruct Hc|].
    assert (Hc0 : In c (getChildren s p))
      by (destruct (opt_id_eqb (parent it) (Some p));
            [eapply delete_first_incl; exact Hc|exact Hc]).
    pose proof (inv_sound _ Hinv _ _ Hc0) as Hs.
    unfold up at 1. rewrite Hg. destruct (del (id c)) eqn:Ec; [exfalso|exact Hs].
    apply Hdel in Ec as [Ec|Ec].
    + rewrite Ec, Hupi in Hs. rewrite Hs in Hc. cbn [opt_id_eqb] in Hc.
      rewrite id_eqb_refl in Hc.
      apply (delete_first_removes i (getChildren s p) (inv_nodup _ Hinv p)).
      apply in_map_iff. exists c. split; [exact Ec|exact Hc].
    + assert (Hp : del p = true); [|congruence].
      apply Hdel. destruct (ancestor_first_step s _ _ _ Ec Hs); auto.
  - intros k p Hk. apply Hup' in Hk as [Ek Hk]. pose proof (Hdel_par k p Ek Hk) as Ep.
    rewrite Hch, Ep. pose proof (inv_complete _ Hinv _ _ Hk) as Hin.
    destruct (opt_id_eqb (parent it) (Some p)); [|exact Hin].
    apply delete_first_keep; [exact Hin|]. intros ->.
    assert (Hi : del i = true) by (apply Hdel; left; reflexivity). congruence.
  - intros p. rewrite Hch. destruct (del p); [constructor|].
    destruct (opt_id_eqb (parent it) (Some p)); [apply delete_first_nodup|];
      apply (inv_nodup _ Hinv).
Qed.

Lemma run_op_preserves fuel op s s1 :
  store_inv_ids s -> run_op fuel op s = (Ok tt, s1) -> store_inv_ids s1.
Proof.
  intros Hinv. destruct op as [it|u|i]; cbn [run_op].
  - rewrite addItem_eq. destruct (map_has (items s) (id it)) eqn:Eh; [discriminate|].
    assert (Hnew : getItem s (id it) = None)
      by (unfold map_has in Eh; unfold getItem; destruct (map_get _ _); congruence).
    destruct (parent it) as [p|] eqn:Hp.
    + destruct (map_has (items s) p) eqn:Ep; [|discriminate].
      destruct (wouldCreateCircularReference fuel s (id it) p) as [[|]|]; try discriminate.
      intros H. injection H as <-. apply add_preserves; [exact Hinv|exact Hnew|].
      intros q Hq. rewrite Hp in Hq. injection Hq as <-. apply map_has_getItem. exact Ep.
    + intros H. injection H as <-. apply add_preserves; [exact Hinv|exact Hnew|].
      intros q Hq. rewrite Hp in Hq. discriminate.
  - rewrite updateItem_eq. destruct (getItem s (id u)) as [e|] eqn:He; [|discriminate].
    destruct (parent u) as [q|] eqn:Hq.
    + destruct (map_has (items s) q) eqn:Eq; [|discriminate].
      destruct (wouldCreateCircularReference fuel s (id u) q) as [[|]|] eqn:Ew;
        try discriminate.
      intros H. injection H as <-. apply update_preserves; [exact Hinv|exact He|].
      intros q' Hq'. rewrite Hq in Hq'. injection Hq' as <-.
      unfold wouldCreateCircularReference in Ew.
      destruct (id_eqb (id u) q) eqn:Eiq; [discriminate|]. apply id_eqb_false in Eiq.
      destruct (getAllChildren fuel s (id u)) as [l|] eqn:El; [|discriminate].
      injection Ew as Ew.
      split; [apply map_has_getItem; exact Eq|split; [congruence|]].
      intros Ha. apply (gac_ids s Hinv _ _ _ El) in Ha.
      apply in_map_iff in Ha as (c & Hc & Hcl).
      assert (Hx : existsb (fun child => id_eqb (id child) q) l = true)
        by (apply existsb_exists; exists c; split; [exact Hcl|apply id_eqb_true; exact Hc]).
      congruence.
    + intros H. injection H as <-. apply update_preserves; [exact Hinv|exact He|].
      intros q' Hq'. rewrite Hq in Hq'. discriminate.
  - rewrite removeItem_eq. destruct (getItem s i) as [it|] eqn:Hi.
    + destruct (getAllChildren fuel s i) as [D|] eqn:HD; [|discriminate].
      intros H. injection H as <-. eapply remove_preserves; eassumption.
    + intros H. injection H as <-. exact Hinv.
Qed.

Lemma runs_preserve s ops s' : store_inv_ids s -> runs s ops s' -> store_inv_ids s'.
Proof.
  intros Hinv H. revert Hinv.
  induction H as [s|s op ops s1 s2 [fuel Hf] _ IH]; intros Hinv; [exact Hinv|].
  apply IH. eapply run_op_preserves; eassumption.
Qed.

(** C2 fails for [addItem]: its existence checks run before the cycle
    check, so an [addItem] whose parent is its own id fails with
    [ParentNotFound] (new id) or [ItemAlreadyExists] (stored id), and an
    [updateItem] of an absent id with itself as parent fails with
    [ItemNotFound]; none of them reports [CircularReference]. *)
Lemma self_parent_not_reported_circular :
  addItem 100 (item (nid 9) (Some (nid 9)) "x") fixture =
    (Err (ParentNotFound (nid 9)), fixture) /\
  addItem 100 (item (nid 1) (Some (nid 1)) "x") fixture =
    (Err (ItemAlreadyExists (nid 1)), fixture) /\
  updateItem 100 (item (nid 9) (Some (nid 9)) "x") fixture =
    (Err (ItemNotFound (nid 9)), fixture).
Proof. vm_compute. repeat split. Qed.

(** C2 (amended). From a store satisfying the invariants, every sequence
    of successful calls reaches a store satisfying them again, hence
    acyclic. An [updateItem] of a stored id whose parent is the id itself
    or one of its current descendants never succeeds: it fails with
    [CircularReference] (or runs out of fuel inside [getAllChildren]), and
    with [CircularReference] once the fuel covers the traversal. An
    [addItem] whose parent is its own id or one of its descendants fails
    with [ItemAlreadyExists] or [ParentNotFound] before the cycle check. *)
Theorem circular_reference_prevented :
  (forall s ops s', store_inv_ids s -> runs s ops s' -> store_inv_ids s' /\ acyclic s') /\
  (forall fuel s u q, store_inv_ids s -> getItem s (id u) <> None -> parent u = Some q ->
     (q = id u \/ ancestor s q (id u)) ->
     (updateItem fuel u s = (Err CircularReference, s) \/ updateItem fuel u s = (OutOfFuel, s)) /\
     (gac_bound s (id u) <= fuel -> updateItem fuel u s = (Err CircularReference, s))) /\
  (forall fuel s it q, store_inv_ids s -> parent it = Some q ->
     (q = id it \/ ancestor s q (id it)) ->
     addItem fuel it s = (Err (ItemAlreadyExists (id it)), s) \/
     addItem fuel it s = (Err (ParentNotFound q), s)).
Proof.
  split; [|split].
  - intros s ops s' Hinv Hr. pose proof (runs_preserve s ops s' Hinv Hr) as H.
    split; [exact H|apply (inv_acyclic _ H)].
  - intros fuel s u q Hinv Hu Hq Hanc.
    assert (Hqs : getItem s q <> None)
      by (destruct Hanc as [->|Ha]; [exact Hu|exact (ancestor_source_stored s _ _ Ha)]).
    destruct (getItem s (id u)) as [e|] eqn:He; [|congruence].
    rewrite updateItem_eq, He, Hq, (proj2 (map_has_getItem s q) Hqs).
    unfold wouldCreateCircularReference.
    destruct (id_eqb (id u) q) eqn:Eiq; [split; [left; reflexivity|intros; reflexivity]|].
    apply id_eqb_false in Eiq. destruct Hanc as [->|Hanc]; [congruence|].
    destruct (getAllChildren fuel s (id u)) as [l|] eqn:El.
    + apply (gac_ids s Hinv _ _ _ El) in Hanc. apply in_map_iff in Hanc as (c & Hc & Hcl).
      assert (Hx : existsb (fun child => id_eqb (id child) q) l = true)
        by (apply existsb_exists; exists c; split; [exact Hcl|apply id_eqb_true; exact Hc]).
      rewrite Hx. split; [left; reflexivity|intros _; reflexivity].
    + split; [right; reflexivity|]. intros Hf.
      rewrite (gac_levels_eq s Hinv (id u) fuel Hf) in El. discriminate.
  - intros fuel s it q Hinv Hq Hanc. rewrite addItem_eq.
    destruct (map_has (items s) (id it)) eqn:Eh; [left; reflexivity|]. right.
    rewrite Hq. destruct Hanc as [->|Hanc]; [rewrite Eh; reflexivity|]. exfalso.
    pose proof (proj2 (map_has_getItem s (id it)) (ancestor_target_stored s _ _ Hinv Hanc)).
    congruence.
Qed.

Lemma circular_reference_prevented_witness :
  (store_inv_ids (snd (addItem 100 (item (nid 9) (Some (nid 4)) "Item 9") fixture)) /\
   acyclic (snd (addItem 100 (item (nid 9) (Some (nid 4)) "Item 9") fixture))) /\
  updateItem 100 (item (nid 1) (Some (nid 4)) "Item 1") fixture =
    (Err CircularReference, fixture) /\
  (addItem 100 (item (nid 4) (Some (nid 7)) "Item 4") fixture =
     (Err (ItemAlreadyExists (nid 4)), fixture) \/
   addItem 100 (item (nid 4) (Some (nid 7)) "Item 4") fixture =
     (Err (ParentNotFound (nid 7)), fixture)).
Proof.
  assert (Hinv : store_inv_ids fixture) by (apply store_inv_idsb_sound; vm_compute; reflexivity).
  destruct circular_reference_prevented as (Hruns & Hupd & Hadd).
  split; [|split].
  - apply (Hruns fixture [OpAdd (item (nid 9) (Some (nid 4)) "Item 9")]); [exact Hinv|].
    apply (runs_cons _ _ _ (snd (addItem 100 (item (nid 9) (Some (nid 4)) "Item 9") fixture)));
      [exists 100; vm_compute; reflexivity|apply runs_nil].
  - apply (Hupd 100 fixture (item (nid 1) (Some (nid 4)) "Item 1") (nid 4) Hinv).
    + vm_compute. discriminate.
    + reflexivity.
    + right. apply ancestor_iter. exists 1. vm_compute. reflexivity.
    + vm_compute. lia.
  - apply (Hadd 100 fixture (item (nid 4) (Some (nid 7)) "Item 4") (nid 7) Hinv eq_refl).
    right. apply ancestor_iter. exists 0. vm_compute. reflexivity.
Defined.

(** ** Further properties of the store *)

Lemma existsb_child_id p l :
  existsb (fun child => id_eqb (id child) p) l = true <-> In p (ids l).
Proof.
  rewrite existsb_exists. split.
  - intros (c & Hc & E). apply id_eqb_true in E. subst p. apply in_map. exact Hc.
  - intros H. apply in_map_iff in H as (c & <- & Hc). exists c.
    split; [exact Hc|apply id_eqb_refl].
Qed.

(** On a store satisfying the invariants, an identifier that is not stored
    has no children and no descendants, [getAllParents] returns [[]],
    [removeItem] does nothing, [updateItem] throws ItemNotFound, and an
    [addItem] under it (with a fresh id) throws ParentNotFound. *)
Theorem unknown_id_behaviour s a fuel :
  store_inv_ids s -> getItem s a = None ->
  getChildren s a = [] /\
  getAllChildren fuel s a = Some [] /\
  getAllParents fuel s a = Some [] /\
  removeItem fuel a s = (Ok tt, s) /\
  (forall u, id u = a -> updateItem fuel u s = (Err (ItemNotFound a), s)) /\
  (forall it, getItem s (id it) = None -> parent it = Some a ->
     addItem fuel it s = (Err (ParentNotFound a), s)).
Proof.
  intros Hinv Ha. pose proof (unknown_no_children s Hinv a Ha) as Hc.
  split; [exact Hc|]. split; [unfold getAllChildren; rewrite Hc; apply bfs_nil|].
  split; [unfold getAllParents; rewrite Ha; reflexivity|].
  split; [rewrite removeItem_eq, Ha; reflexivity|].
  split; [intros u <-; rewrite updateItem_eq, Ha; reflexivity|].
  intros it Hit Hp. rewrite addItem_eq.
  unfold map_has. unfold getItem in Hit, Ha. rewrite Hit, Hp, Ha. reflexivity.
Qed.

Lemma unknown_id_behaviour_witness :
  getAllChildren 100 fixture (nid 999) = Some [] /\
  removeItem 100 (nid 999) fixture = (Ok tt, fixture) /\
  addItem 100 (item (nid 9) (Some (nid 999)) "Item 9") fixture =
    (Err (ParentNotFound (nid 999)), fixture).
Proof.
  assert (Hinv : store_inv_ids fixture) by (apply store_inv_idsb_sound; vm_compute; reflexivity).
  destruct (unknown_id_behaviour fixture (nid 999) 100 Hinv) as (_ & H1 & _ & H2 & _ & H3);
    [vm_compute; reflexivity|].
  split; [exact H1|split; [exact H2|]]. apply H3; vm_compute; reflexivity.
Defined.

(** The private cycle check is exact on a store satisfying the invariants:
    whenever it returns, it answers [true] iff the new parent is the item
    itself or one of its descendants; and it returns once the fuel covers
    the traversal. *)
Theorem wouldCreateCircularReference_correct s i p :
  store_inv_ids s ->
  (forall fuel b, wouldCreateCircularReference fuel s i p = Some b ->
     (b = true <-> p = i \/ ancestor s p i)) /\
  (forall fuel, gac_bound s i <= fuel -> wouldCreateCircularReference fuel s i p <> None).
Proof.
  intros Hinv. split.
  - intros fuel b. unfold wouldCreateCircularReference.
    destruct (id_eqb i p) eqn:E.
    + apply id_eqb_true in E. subst p. intros H. injection H as <-. split; auto.
    + apply id_eqb_false in E. destruct (getAllChildren fuel s i) as [l|] eqn:El;
        [|discriminate].
      intros H. injection H as <-. rewrite existsb_child_id, (gac_ids s Hinv i fuel l El).
      split; [intros H; right; exact H|intros [->|H]; [congruence|exact H]].
  - intros fuel Hf. unfold wouldCreateCircularReference.
    destruct (id_eqb i p); [discriminate|]. rewrite (gac_levels_eq s Hinv i fuel Hf).
    discriminate.
Qed.

Lemma wouldCreateCircularReference_correct_witness :
  wouldCreateCircularReference 100 fixture (nid 1) (nid 7) = Some true /\
  ancestor fixture (nid 7) (nid 1).
Proof.
  assert (Hinv : store_inv_ids fixture) by (apply store_inv_idsb_sound; vm_compute; reflexivity).
  assert (H : wouldCreateCircularReference 100 fixture (nid 1) (nid 7) = Some true)
    by (vm_compute; reflexivity).
  split; [exact H|].
  destruct (proj1 (proj1 (wouldCreateCircularReference_correct fixture (nid 1) (nid 7) Hinv)
                     100 true H) eq_refl) as [E|E]; [discriminate|exact E].
Defined.

(** Whatever the store, after a successful [removeItem i] the id [i] is
    absent, and removing it again leaves the store as it is. *)
Theorem removeItem_idempotent fuel i s s' :
  removeItem fuel i s = (Ok tt, s') ->
  getItem s' i = None /\ forall fuel', removeItem fuel' i s' = (Ok tt, s').
Proof.
  rewrite removeItem_eq. destruct (getItem s i) as [it|] eqn:Hi.
  - destruct (getAllChildren fuel s i) as [D|]; [|discriminate].
    intros H. injection H as <-.
    assert (Hg : getItem (remove_state s it i D) i = None)
      by (rewrite remove_state_getItem, id_eqb_refl; reflexivity).
    split; [exact Hg|]. intros fuel'. rewrite removeItem_eq, Hg. reflexivity.
  - intros H. injection H as <-. split; [exact Hi|].
    intros fuel'. rewrite removeItem_eq, Hi. reflexivity.
Qed.

Lemma removeItem_idempotent_witness :
  getItem (snd (removeItem 100 idA fixture)) idA = None /\
  removeItem 100 idA (snd (removeItem 100 idA fixture)) =
    (Ok tt, snd (removeItem 100 idA fixture)).
Proof.
  destruct (removeItem_idempotent 100 idA fixture (snd (removeItem 100 idA fixture)))
    as [H1 H2]; [vm_compute; reflexivity|].
  split; [exact H1|apply H2].
Defined.

Lemma addItem_ok fuel it s s' :
  addItem fuel it s = (Ok tt, s') -> getItem s (id it) = None /\ s' = add_state s it.
Proof.
  rewrite addItem_eq. destruct (map_has (items s) (id it)) eqn:Eh; [discriminate|].
  assert (Hn : getItem s (id it) = None)
    by (unfold map_has in Eh; unfold getItem; destruct (map_get _ _); congruence).
  destruct (parent it) as [p|].
  - destruct (map_has (items s) p); [|discriminate].
    destruct (wouldCreateCircularReference fuel s (id it) p) as [[|]|]; try discriminate.
    intros H. injection H as <-. auto.
  - intros H. injection H as <-. auto.
Qed.

Lemma updateItem_ok fuel u s s' :
  updateItem fuel u s = (Ok tt, s') ->
  exists e, getItem s (id u) = Some e /\ s' = update_state s e u.
Proof.
  rewrite updateItem_eq. destruct (getItem s (id u)) as [e|]; [|discriminate].
  destruct (parent u) as [p|].
  - destruct (map_has (items s) p); [|discriminate].
    destruct (wouldCreateCircularReference fuel s (id u) p) as [[|]|]; try discriminate.
    intros H. injection H as <-. eauto.
  - intros H. injection H as <-. eauto.
Qed.

Lemma removeItem_ok fuel i s s' :
  removeItem fuel i s = (Ok tt, s') ->
  (getItem s i = None /\ s' = s) \/
  exists it D, getItem s i = Some it /\ getAllChildren fuel s i = Some D /\
               s' = remove_state s it i D.
Proof.
  rewrite removeItem_eq. destruct (getItem s i) as [it|]; [|intros H; injection H; auto].
  destruct (getAllChildren fuel s i) as [D|]; [|discriminate].
  intros H. injection H as <-. right. eauto.
Qed.

(** Successful [addItem] and [removeItem] calls keep the full invariant:
    besides invariants 1-4 on identifiers, every entry of a child list is
    still the very record stored under its identifier. *)
Theorem add_remove_keep_records fuel s s' :
  store_inv s ->
  (forall it, addItem fuel it s = (Ok tt, s') -> store_inv s') /\
  (forall i, removeItem fuel i s = (Ok tt, s') -> store_inv s').
Proof.
  intros [Hids Hrec]. split.
  - intros it Ha. pose proof (run_op_preserves fuel (OpAdd it) s s' Hids Ha) as Hids'.
    apply addItem_ok in Ha as [Hn ->].
    assert (Hh : map_has (items s) (id it) = false)
      by (unfold map_has; unfold getItem in Hn; rewrite Hn; reflexivity).
    destruct (add_state_effect s it Hh) as (Hg1 & Hg2 & _ & Hch).
    split; [exact Hids'|]. intros p c Hc. rewrite Hch in Hc.
    assert (Hold : In c (getChildren s p) -> getItem (add_state s it) (id c) = Some c).
    { intros H. pose proof (Hrec p c H) as Hr. rewrite Hg2; [exact Hr|].
      intros E. rewrite E, Hn in Hr. discriminate. }
    destruct (is_child_of p it); [|exact (Hold Hc)].
    apply in_app_or in Hc as [Hc|[<-|[]]]; [exact (Hold Hc)|exact Hg1].
  - intros i Hr. pose proof (run_op_preserves fuel (OpRemove i) s s' Hids Hr) as Hids'.
    apply removeItem_ok in Hr as [[_ ->]|(it & D & Hit & HD & ->)]; [split; assumption|].
    split; [exact Hids'|]. intros p c Hc.
    pose proof (inv_sound _ Hids' _ _ Hc) as Hup. unfold up in Hup.
    rewrite remove_state_getItem in Hup |- *.
    destruct (_ || _) eqn:Ed; [discriminate|].
    rewrite remove_state_getChildren in Hc.
    destruct (id_eqb p i || existsb (id_eqb p) (ids D)); [destruct Hc|].
    apply (Hrec p). destruct (opt_id_eqb (parent it) (Some p));
      [eapply delete_first_incl; exact Hc|exact Hc].
Qed.

Lemma add_remove_keep_records_witness :
  store_inv (snd (addItem 100 (item (nid 9) (Some (nid 4)) "Item 9") fixture)) /\
  store_inv (snd (removeItem 100 idA fixture)).
Proof.
  assert (Hinv : store_inv fixture) by (apply store_invb_sound; vm_compute; reflexivity).
  split.
  - apply (proj1 (add_remove_keep_records 100 fixture _ Hinv)
             (item (nid 9) (Some (nid 4)) "Item 9")).
    vm_compute. reflexivity.
  - apply (proj2 (add_remove_keep_records 100 fixture _ Hinv) idA).
    vm_compute. reflexivity.
Defined.



Lemma addItem_ok_parent fuel it s s' :
  addItem fuel it s = (Ok tt, s') -> forall p, parent it = Some p -> getItem s p <> None.
Proof.
  rewrite addItem_eq. destruct (map_has (items s) (id it)); [discriminate|].
  intros H p Hp. rewrite Hp in H. destruct (map_has (items s) p) eqn:Ep; [|discriminate].
  apply map_has_getItem. exact Ep.
Qed.

Lemma map_delete_set_new {V} (m : JsMap V) k v :
  map_get m k = None -> map_delete (map_set m k v) k = m.
Proof.
  unfold map_delete. induction m as [|[k' v'] t IH]; cbn.
  - rewrite id_eqb_refl. reflexivity.
  - id_destr k k'; [discriminate|]. intros H. cbn.
    rewrite (proj2 (id_eqb_false k k') E). cbn. rewrite IH; [reflexivity|exact H].
Qed.

Lemma items_remove_nil s it i :
  items (remove_state s it i []) = map_delete (items s) i.
Proof. unfold remove_state. destruct (parent it); [rewrite unlink_items|]; reflexivity. Qed.

Lemma delete_first_app_new i l x :
  ~ In i (ids l) -> id x = i -> delete_first i (l ++ [x]) = l.
Proof.
  intros Hn Hx. induction l as [|c t IH]; cbn.
  - rewrite Hx, id_eqb_refl. reflexivity.
  - cbn in Hn. destruct (id_eqb (id c) i) eqn:E.
    + apply id_eqb_true in E. tauto.
    + rewrite IH; [reflexivity|tauto].
Qed.

(** Removing an item right after adding it restores the store as seen
    through its queries: [getAll], [getItem] and [getChildren] answer as
    before the [addItem] (only an emptied child-list entry may remain in
    the children index). *)
Theorem add_then_remove_roundtrip fuel fuel' s it s1 :
  store_inv_ids s -> addItem fuel it s = (Ok tt, s1) ->
  exists s2, removeItem fuel' (id it) s1 = (Ok tt, s2) /\
    getAll s2 = getAll s /\
    (forall k, getItem s2 k = getItem s k) /\
    (forall k, getChildren s2 k = getChildren s k).
Proof.
  intros Hinv Ha. pose proof (addItem_ok_parent fuel it s s1 Ha) as Hpar.
  apply addItem_ok in Ha as [Hn ->].
  assert (Hh : map_has (items s) (id it) = false)
    by (unfold map_has; unfold getItem in Hn; rewrite Hn; reflexivity).
  destruct (add_state_effect s it Hh) as (Hg1 & Hg2 & _ & Hch).
  pose proof (unknown_no_children s Hinv (id it) Hn) as Hc0.
  assert (Hself : is_child_of (id it) it = false).
  { destruct (is_child_of (id it) it) eqn:E; [|reflexivity].
    apply is_child_of_eq in E. destruct (Hpar _ E Hn). }
  assert (Hc1 : getChildren (add_state s it) (id it) = [])
    by (rewrite Hch, Hself; exact Hc0).
  assert (Hgac : getAllChildren fuel' (add_state s it) (id it) = Some [])
    by (unfold getAllChildren; rewrite Hc1; apply bfs_nil).
  rewrite removeItem_eq, Hg1, Hgac. eexists. split; [reflexivity|].
  split; [|split].
  - unfold getAll, map_values. rewrite items_remove_nil, items_add.
    rewrite map_delete_set_new; [reflexivity|exact Hn].
  - intros k. rewrite remove_state_getItem. cbn [ids map existsb]. rewrite orb_false_r.
    id_destr k (id it); [symmetry; exact Hn|]. apply Hg2. exact E.
  - intros k. rewrite remove_state_getChildren. cbn [ids map existsb]. rewrite orb_false_r.
    id_destr k (id it); [symmetry; exact Hc0|]. rewrite Hch. unfold is_child_of.
    destruct (opt_id_eqb (parent it) (Some k)) eqn:Ep; [|reflexivity].
    apply delete_first_app_new; [|reflexivity].
    intros Hin. apply (inv_sound_ids s k _ Hinv) in Hin. unfold up in Hin. rewrite Hn in Hin.
    discriminate.
Qed.

Lemma add_then_remove_roundtrip_witness :
  exists s2, removeItem 100 (nid 9) (snd (addItem 100 (item (nid 9) (Some (nid 4)) "Item 9")
                                             fixture)) = (Ok tt, s2) /\
    getAll s2 = getAll fixture.
Proof.
  assert (Hinv : store_inv_ids fixture) by (apply store_inv_idsb_sound; vm_compute; reflexivity).
  destruct (add_then_remove_roundtrip 100 100 fixture (item (nid 9) (Some (nid 4)) "Item 9")
              (snd (addItem 100 (item (nid 9) (Some (nid 4)) "Item 9") fixture)) Hinv)
    as (s2 & H1 & H2 & _); [vm_compute; reflexivity|].
  exists s2. split; [exact H1|exact H2].
Defined.

Lemma nodup_in_get {V} (m : JsMap V) k v :
  NoDup (map fst m) -> In (k, v) m -> map_get m k = Some v.
Proof.
  induction m as [|[k' v'] t IH]; cbn; [intros _ []|].
  intros Hnd Hin. inversion Hnd as [|? ? Hnin Hnd']; subst.
  destruct Hin as [E|Hin].
  - injection E as -> ->. rewrite id_eqb_refl. reflexivity.
  - id_destr k k'; [|apply IH; assumption].
    exfalso. apply Hnin. apply (in_map fst) in Hin. exact Hin.
Qed.

Lemma map_values_keyed_absent (t : JsMap TreeStoreItem) k u :
  (forall k' v, In (k', v) t -> id v = k') -> ~ In k (map fst t) ->
  map (fun x => if id_eqb (id x) k then u else x) (map snd t) = map snd t.
Proof.
  induction t as [|[k' v'] t IH]; cbn; [reflexivity|]. intros Hkey Hnin.
  rewrite (Hkey k' v' (or_introl eq_refl)), (proj2 (id_eqb_false k' k)) by tauto.
  f_equal. apply IH; [intros a b Hab; apply Hkey; right; exact Hab|tauto].
Qed.

Lemma map_values_set_keyed (m : JsMap TreeStoreItem) k u :
  NoDup (map fst m) -> (forall k' v, In (k', v) m -> id v = k') -> In k (map fst m) ->
  map_values (map_set m k u) =
  map (fun x => if id_eqb (id x) k then u else x) (map_values m).
Proof.
  unfold map_values. induction m as [|[k' v'] t IH]; cbn; [intros _ _ []|].
  intros Hnd Hkey Hin. inversion Hnd as [|? ? Hnin Hnd']; subst.
  rewrite (Hkey k' v' (or_introl eq_refl)).
  destruct (id_eqb k k') eqn:E.
  - apply id_eqb_true in E. subst k'. cbn. rewrite id_eqb_refl. f_equal.
    symmetry. apply map_values_keyed_absent; [|exact Hnin].
    intros a b Hab; apply Hkey; right; exact Hab.
  - apply id_eqb_false in E. cbn. rewrite (proj2 (id_eqb_false k' k)); [|congruence]. f_equal.
    apply IH; [exact Hnd'|intros a b Hab; apply Hkey; right; exact Hab|].
    destruct Hin as [Hin|Hin]; [congruence|exact Hin].
Qed.

(** A successful [updateItem u] on a store satisfying the invariants keeps
    the order of [getAll]: the old record of [u.id] is replaced by [u] at
    its position and the other records stay where they were. *)
Theorem updateItem_getAll_in_place fuel s u s' :
  store_inv_ids s -> updateItem fuel u s = (Ok tt, s') ->
  getAll s' = map (fun x => if id_eqb (id x) (id u) then u else x) (getAll s).
Proof.
  intros Hinv Hu. apply updateItem_ok in Hu as (e & He & ->).
  unfold getAll. rewrite items_update. apply map_values_set_keyed.
  - apply (inv_nodup_items _ Hinv).
  - intros k v Hin. apply (inv_keys _ Hinv). unfold getItem.
    apply nodup_in_get; [apply (inv_nodup_items _ Hinv)|exact Hin].
  - eapply map_get_In. exact He.
Qed.

Lemma updateItem_getAll_in_place_witness :
  getAll (snd (updateItem 100 (item (nid 3) (Some idA) "Item 3 moved") fixture)) =
  map (fun x => if id_eqb (id x) (nid 3) then item (nid 3) (Some idA) "Item 3 moved" else x)
      (getAll fixture).
Proof.
  assert (Hinv : store_inv_ids fixture) by (apply store_inv_idsb_sound; vm_compute; reflexivity).
  apply (updateItem_getAll_in_place 100 fixture (item (nid 3) (Some idA) "Item 3 moved") _ Hinv).
  vm_compute. reflexivity.
Defined.

Lemma ancestor_transfer a b n :
  acyclic a -> (forall k, k <> n -> up b k = up a k) ->
  forall x, ancestor a x n -> ancestor b x n.
Proof.
  intros Hac Hup x Hx. apply clos_trans_t1n in Hx.
  induction Hx as [x y Hxy|x y z Hxy Hyz IH].
  - constructor. rewrite Hup; [exact Hxy|]. intros ->. apply (Hac y). constructor. exact Hxy.
  - apply (t_trans _ _ x y); [constructor|exact (IH Hup)]. rewrite Hup; [exact Hxy|]. intros Ex. subst x.
    apply (Hac z). eapply t_trans; [constructor; exact Hxy|].
    apply clos_t1n_trans. exact Hyz.
Qed.

Lemma update_state_up s e u k : k <> id u -> up (update_state s e u) k = up s k.
Proof.
  intros Hk. unfold up. rewrite update_state_getItem, (proj2 (id_eqb_false k (id u)) Hk).
  reflexivity.
Qed.

(** Moving an item with [updateItem] carries its whole subtree: on a store
    satisfying the invariants, the descendants of [u.id] after a successful
    call are exactly those before it, and so [getAllChildren(u.id)] lists
    the same identifiers before and after. *)
Theorem updateItem_moves_subtree fuel s u s' :
  store_inv_ids s -> updateItem fuel u s = (Ok tt, s') ->
  (forall x, ancestor s' x (id u) <-> ancestor s x (id u)) /\
  (forall m m' l l', getAllChildren m s (id u) = Some l ->
     getAllChildren m' s' (id u) = Some l' -> forall k, In k (ids l') <-> In k (ids l)).
Proof.
  intros Hinv Hu. pose proof (run_op_preserves fuel (OpUpdate u) s s' Hinv Hu) as Hinv'.
  apply updateItem_ok in Hu as (e & He & ->).
  assert (Hanc : forall x, ancestor (update_state s e u) x (id u) <-> ancestor s x (id u)).
  { intros x. split.
    - apply ancestor_transfer; [apply (inv_acyclic _ Hinv')|].
      intros k Hk. symmetry. apply update_state_up. exact Hk.
    - apply ancestor_transfer; [apply (inv_acyclic _ Hinv)|].
      intros k Hk. apply update_state_up. exact Hk. }
  split; [exact Hanc|]. intros m m' l l' Hl Hl' k.
  rewrite (gac_ids _ Hinv' _ _ _ Hl' k), (gac_ids _ Hinv _ _ _ Hl k). apply Hanc.
Qed.

Lemma updateItem_moves_subtree_witness :
  ancestor (snd (updateItem 100 (item idA (Some (nid 3)) "Item 2") fixture)) (nid 7) idA.
Proof.
  assert (Hinv : store_inv_ids fixture) by (apply store_inv_idsb_sound; vm_compute; reflexivity).
  apply (proj1 (updateItem_moves_subtree 100 fixture (item idA (Some (nid 3)) "Item 2") _ Hinv
                  eq_refl) (nid 7)).
  apply ancestor_iter. exists 1. vm_compute. reflexivity.
Defined.

Lemma last_with_id_In k l y : last_with_id k l = Some y -> In y l /\ id y = k.
Proof.
  induction l as [|x t IH]; cbn; [discriminate|].
  destruct (last_with_id k t) as [z|] eqn:E.
  - intros H. injection H as <-. destruct (IH eq_refl). auto.
  - destruct (id_eqb (id x) k) eqn:Ex; [|discriminate]. intros H. injection H as <-.
    apply id_eqb_true in Ex. auto.
Qed.

Lemma last_with_id_nodup l it : NoDup (ids l) -> In it l -> last_with_id (id it) l = Some it.
Proof.
  induction l as [|x t IH]; cbn; [intros _ []|]. intros Hnd Hin.
  inversion Hnd as [|? ? Hnin Hnd']; subst.
  destruct Hin as [<-|Hin].
  - destruct (last_with_id (id x) t) as [z|] eqn:E.
    + exfalso. apply last_with_id_In in E as [Hz Ez]. apply Hnin. rewrite <- Ez.
      apply in_map. exact Hz.
    + rewrite id_eqb_refl. reflexivity.
  - rewrite IH; [reflexivity|exact Hnd'|exact Hin].
Qed.

Lemma nodup_ids_filter f l : NoDup (ids l) -> NoDup (ids (filter f l)).
Proof.
  induction l as [|x t IH]; cbn; [constructor|]. intros Hnd.
  inversion Hnd as [|? ? Hnin Hnd']; subst.
  destruct (f x); [|apply IH; exact Hnd'].
  cbn. constructor; [|apply IH; exact Hnd'].
  intros Hin. apply Hnin. unfold ids in *. apply in_map_iff in Hin as (c & Ec & Hc).
  apply filter_In in Hc as [Hc _]. rewrite <- Ec. apply in_map. exact Hc.
Qed.

Lemma fold_set_values_new l : forall m,
  NoDup (ids l) -> (forall x, In x l -> map_get m (id x) = None) ->
  map_values (fold_left (fun m item => map_set m (id item) item) l m) = map_values m ++ l.
Proof.
  induction l as [|x t IH]; intros m Hnd Hnew; cbn [fold_left]; [rewrite app_nil_r; reflexivity|].
  inversion Hnd as [|? ? Hnin Hnd']; subst.
  rewrite IH; [|exact Hnd'|].
  - rewrite map_values_set_new by (apply Hnew; left; reflexivity).
    rewrite <- app_assoc. reflexivity.
  - intros y Hy. rewrite map_get_set.
    rewrite (proj2 (id_eqb_false (id y) (id x))); [apply Hnew; right; exact Hy|].
    intros E. apply Hnin. rewrite <- E. apply in_map. exact Hy.
Qed.

(** The constructor on a well-formed list (identifiers unique, every parent
    listed, no parent cycle) builds a store satisfying the full invariant,
    and [getAll] gives the list back in its order. *)
Theorem initialize_well_formed l :
  NoDup (ids l) ->
  (forall it p, In it l -> parent it = Some p -> In p (ids l)) ->
  acyclic (initialize l) ->
  store_inv (initialize l) /\ getAll (initialize l) = l.
Proof.
  intros Hnd Hpar Hac.
  destruct (initialize_duplicates_facts l) as [Hget Hch].
  assert (Hgetin : forall it, In it l -> getItem (initialize l) (id it) = Some it)
    by (intros it Hin; rewrite Hget; apply last_with_id_nodup; assumption).
  assert (Hgetl : forall k it, getItem (initialize l) k = Some it -> In it l /\ id it = k)
    by (intros k it H; rewrite Hget in H; apply last_with_id_In; exact H).
  split.
  - assert (Hids : store_inv_ids (initialize l)).
    { constructor.
      - destruct (fold_set_keyed l []) as [Hk _]; [split; [constructor|intros k v []]|].
        exact Hk.
      - intros k it H. apply Hgetl in H. tauto.
      - intros k it p H Hp. apply Hgetl in H as [Hin _].
        apply (Hpar _ _ Hin) in Hp. apply in_map_iff in Hp as (y & <- & Hy).
        apply map_has_getItem. rewrite (Hgetin y Hy). discriminate.
      - exact Hac.
      - intros p c Hc. rewrite Hch in Hc. apply filter_In in Hc as [Hc Hp].
        apply is_child_of_eq in Hp. unfold up. rewrite (Hgetin c Hc). exact Hp.
      - intros k p Hk. unfold up in Hk. destruct (getItem (initialize l) k) as [it|] eqn:E;
          [|discriminate].
        apply Hgetl in E as [Hin <-]. rewrite Hch. apply in_map. apply filter_In.
        split; [exact Hin|apply is_child_of_eq; exact Hk].
      - intros p. rewrite Hch. apply nodup_ids_filter. exact Hnd. }
    split; [exact Hids|]. intros p c Hc. rewrite Hch in Hc. apply filter_In in Hc as [Hc _].
    apply Hgetin. exact Hc.
  - unfold getAll, initialize; cbn [items]. rewrite fold_set_values_new; [reflexivity|exact Hnd|].
    intros x _. reflexivity.
Qed.

Lemma initialize_well_formed_witness : store_inv fixture /\ getAll fixture = mockItems.
Proof.
  apply initialize_well_formed.
  - apply nodupb_NoDup. vm_compute. reflexivity.
  - intros it p Hin Hp. apply existsb_id_In. cbn in Hin.
    repeat (destruct Hin as [<-|Hin];
            [cbn in Hp; try discriminate Hp; injection Hp as <-; vm_compute; reflexivity|]).
    destruct Hin.
  - apply acyclicb_sound. vm_compute. reflexivity.
Defined.




Lemma find_last_with_id k l :
  NoDup (ids l) -> find (fun row => id_eqb (id row) k) l = last_with_id k l.
Proof.
  induction l as [|x t IH]; cbn; [reflexivity|]. intros Hnd.
  inversion Hnd as [|? ? Hnin Hnd']; subst.
  destruct (id_eqb (id x) k) eqn:E.
  - apply id_eqb_true in E. subst k.
    destruct (last_with_id (id x) t) as [y|] eqn:Ey; [|reflexivity].
    exfalso. apply last_with_id_In in Ey as [Hy Ey]. apply Hnin. rewrite <- Ey.
    apply in_map. exact Hy.
  - rewrite IH by exact Hnd'. destruct (last_with_id k t); reflexivity.
Qed.

Lemma parents_walk_acc fuel s : forall cur acc,
  parents_walk fuel s cur acc = option_map (app acc) (parents_walk fuel s cur []).
Proof.
  induction fuel as [|f IH]; intros cur acc; rewrite !parents_walk_eq;
    destruct (parent cur) as [p|]; cbn; try (rewrite app_nil_r; reflexivity).
  - destruct (getItem s p); [reflexivity|cbn; rewrite app_nil_r; reflexivity].
  - destruct (getItem s p) as [par|]; [|cbn; rewrite app_nil_r; reflexivity].
    rewrite (IH par (acc ++ [par])), (IH par [par]).
    destruct (parents_walk f s par []); cbn; [rewrite <- app_assoc|]; reflexivity.
Qed.

Lemma buildPath_parents_walk rows fuel :
  NoDup (ids rows) -> forall cur path,
  buildPath fuel rows (parent cur) path =
  option_map (fun l => path ++ rev (map label l)) (parents_walk fuel (initialize rows) cur []).
Proof.
  intros Hnd. induction fuel as [|f IH]; intros cur path;
    rewrite parents_walk_eq; destruct (parent cur) as [p|]; cbn [buildPath];
    try (cbn; rewrite app_nil_r; reflexivity);
    rewrite find_last_with_id by exact Hnd;
    rewrite (proj1 (initialize_duplicates_facts rows));
    (destruct (last_with_id p rows) as [par|]; [|cbn; rewrite app_nil_r; reflexivity]).
  - reflexivity.
  - rewrite IH, (parents_walk_acc f (initialize rows) par ([] ++ [par])).
    destruct (parents_walk f (initialize rows) par []); cbn;
      [|reflexivity].
    rewrite app_assoc. reflexivity.
Qed.

(** [getDataPath] of the tree view lists the labels of the row's ancestors
    from the root down, then the row's own label: when the row identifiers
    are unique, it answers, with the same bound, exactly the reversed labels
    of [getAllParents] on the store built from the rows, and runs out
    exactly when [getAllParents] does. *)
Theorem getDataPath_getAllParents fuel rows data :
  NoDup (ids rows) -> In data rows ->
  getDataPath fuel rows data =
  option_map (fun ps => rev (map label ps)) (getAllParents fuel (initialize rows) (id data)).
Proof.
  intros Hnd Hin. unfold getDataPath, getAllParents.
  rewrite (proj1 (initialize_duplicates_facts rows)), last_with_id_nodup by assumption.
  rewrite buildPath_parents_walk by exact Hnd.
  rewrite (parents_walk_acc fuel (initialize rows) data [data]).
  destruct (parents_walk fuel (initialize rows) data []); reflexivity.
Qed.

Lemma getDataPath_getAllParents_witness :
  getDataPath 100 mockItems (item (nid 7) (Some (nid 4)) "Item 7") =
  option_map (fun ps => rev (map label ps)) (getAllParents 100 fixture (nid 7)) /\
  getDataPath 100 mockItems (item (nid 7) (Some (nid 4)) "Item 7") =
  Some ["Item 1"; "Item 2"; "Item 4"; "Item 7"]%string.
Proof.
  split; [|vm_compute; reflexivity].
  apply (getDataPath_getAllParents 100 mockItems (item (nid 7) (Some (nid 4)) "Item 7")).
  - apply nodupb_NoDup. vm_compute. reflexivity.
  - cbn. tauto.
Defined.

Lemma filter_filter_and {A} (f g : A -> bool) l :
  filter f (filter g l) = filter (fun x => g x && f x) l.
Proof.
  induction l as [|x t IH]; cbn; [reflexivity|].
  destruct (g x); cbn; [destruct (f x); cbn; rewrite IH|rewrite IH]; reflexivity.
Qed.

Lemma fold_delete_items D : forall st,
  items (fold_left (fun st c => delete_both (id c) st) D st) =
  filter (fun kv => negb (existsb (id_eqb (fst kv)) (ids D))) (items st).
Proof.
  induction D as [|c t IH]; intros st; cbn [fold_left].
  - cbn. induction (items st) as [|x r IHr]; cbn; [reflexivity|f_equal; exact IHr].
  - rewrite IH. cbn [delete_both items]. unfold map_delete. rewrite filter_filter_and.
    apply filter_ext. intros [k v]. cbn. rewrite (id_eqb_sym (id c) k).
    destruct (id_eqb k (id c)); reflexivity.
Qed.

Lemma items_remove_state s it i D :
  items (remove_state s it i D) =
  filter (fun kv => negb (id_eqb (fst kv) i || existsb (id_eqb (fst kv)) (ids D))) (items s).
Proof.
  unfold remove_state. destruct (parent it); [rewrite unlink_items|];
    cbn [delete_both items]; unfold map_delete; rewrite fold_delete_items, filter_filter_and;
    apply filter_ext; intros [k v]; cbn; rewrite (id_eqb_sym i k);
    destruct (id_eqb k i), (existsb _ _); reflexivity.
Qed.

Lemma inv_items_keyed s : store_inv_ids s -> forall k v, In (k, v) (items s) -> id v = k.
Proof.
  intros Hinv k v Hin. apply (inv_keys _ Hinv). unfold getItem.
  apply nodup_in_get; [apply (inv_nodup_items _ Hinv)|exact Hin].
Qed.

Lemma getAll_getItem s x : store_inv_ids s -> In x (getAll s) -> getItem s (id x) = Some x.
Proof.
  intros Hinv Hx. unfold getAll, map_values in Hx. apply in_map_iff in Hx as ([k v] & Ev & Hin).
  cbn in Ev. subst v. rewrite (inv_items_keyed s Hinv k x Hin). unfold getItem.
  apply nodup_in_get; [apply (inv_nodup_items _ Hinv)|exact Hin].
Qed.

Lemma values_filter_keyed (m : JsMap TreeStoreItem) (g : Identifier -> bool) :
  (forall k v, In (k, v) m -> id v = k) ->
  map snd (filter (fun kv => g (fst kv)) m) = filter (fun x => g (id x)) (map snd m).
Proof.
  intros Hk. induction m as [|kv t IH]; [reflexivity|].
  cbn [filter map]. destruct kv as [k v].
  change (g (fst (k, v))) with (g k). change (snd (k, v)) with v.
  rewrite (Hk k v (or_introl eq_refl)).
  assert (IH' := IH ltac:(intros a b Hab; apply Hk; right; exact Hab)).
  destruct (g k); cbn [map]; rewrite IH'; reflexivity.
Qed.

(** On a store satisfying the invariants, a successful [removeItem i]
    leaves in [getAll] exactly the records that are neither [i] nor a
    descendant of [i], in their previous order. *)
Theorem removeItem_getAll fuel s i s' :
  store_inv_ids s -> removeItem fuel i s = (Ok tt, s') ->
  exists keep, getAll s' = filter keep (getAll s) /\
    (forall x, In x (getAll s) -> (keep x = true <-> id x <> i /\ ~ ancestor s (id x) i)).
Proof.
  intros Hinv Hr.
  apply removeItem_ok in Hr as [[Hi ->]|(it & D & Hit & HD & ->)].
  - exists (fun _ => true). split.
    + induction (getAll s) as [|x t IH]; cbn; [reflexivity|rewrite <- IH; reflexivity].
    + intros x Hx. pose proof (getAll_getItem s x Hinv Hx) as Hg. split; [intros _|auto].
      split; [intros E; rewrite E, Hi in Hg; discriminate|].
      intros Ha. exact (ancestor_target_stored s _ _ Hinv Ha Hi).
  - exists (fun x => negb (id_eqb (id x) i || existsb (id_eqb (id x)) (ids D))). split.
    + unfold getAll, map_values. rewrite items_remove_state.
      apply (values_filter_keyed _ (fun k => negb (id_eqb k i || existsb (id_eqb k) (ids D)))).
      exact (inv_items_keyed s Hinv).
    + intros x _. rewrite negb_true_iff, orb_false_iff, id_eqb_false.
      rewrite <- (gac_ids s Hinv i fuel D HD (id x)), <- existsb_id_In.
      destruct (existsb (id_eqb (id x)) (ids D)); split; intros [H1 H2]; split;
        try assumption; try discriminate; try (intros H; discriminate H); congruence.
Qed.

Lemma removeItem_getAll_witness :
  exists keep, getAll (snd (removeItem 100 idA fixture)) = filter keep (getAll fixture) /\
    (forall x, In x (getAll fixture) ->
       (keep x = true <-> id x <> idA /\ ~ ancestor fixture (id x) idA)).
Proof.
  assert (Hinv : store_inv_ids fixture) by (apply store_inv_idsb_sound; vm_compute; reflexivity).
  apply (removeItem_getAll 100 fixture idA _ Hinv). vm_compute. reflexivity.
Defined.

Lemma map_set_same {V} (m : JsMap V) k v : map_get m k = Some v -> map_set m k v = m.
Proof.
  induction m as [|[k' v'] t IH]; cbn; [discriminate|].
  id_destr k k'; [intros H; injection H as ->; reflexivity|].
  intros H. rewrite IH by exact H. reflexivity.
Qed.

Lemma update_state_same s u : getItem s (id u) = Some u -> update_state s u u = s.
Proof.
  intros H. unfold update_state.
  rewrite (proj2 (opt_id_eqb_true (parent u) (parent u)) eq_refl). cbn [negb].
  destruct s as [its cm]. unfold set_items. cbn [items childrenMap]. f_equal.
  apply map_set_same. exact H.
Qed.

(** Repeating a successful [updateItem u] never changes the store; on a
    store satisfying the invariants, the repeated call succeeds once the
    fuel covers the traversal of the cycle check. *)
Theorem updateItem_idempotent fuel u s s1 :
  updateItem fuel u s = (Ok tt, s1) ->
  (forall fuel', snd (updateItem fuel' u s1) = s1) /\
  (store_inv_ids s -> forall fuel', gac_bound s1 (id u) <= fuel' ->
     updateItem fuel' u s1 = (Ok tt, s1)).
Proof.
  intros Hu.
  pose proof Hu as Hu'. apply updateItem_ok in Hu' as (e & He & Hs1).
  assert (Hg1 : getItem s1 (id u) = Some u)
    by (rewrite Hs1, update_state_getItem, id_eqb_refl; reflexivity).
  split.
  - intros fuel'. rewrite updateItem_eq, Hg1.
    destruct (parent u) as [q|];
      [destruct (map_has (items s1) q);
         [destruct (wouldCreateCircularReference fuel' s1 (id u) q) as [[|]|]|]|];
      cbn [snd]; try reflexivity; apply update_state_same; exact Hg1.
  - intros Hinv fuel' Hf. pose proof (run_op_preserves fuel (OpUpdate u) s s1 Hinv Hu) as Hinv1.
    rewrite updateItem_eq, Hg1. destruct (parent u) as [q|] eqn:Hq.
    + rewrite (inv_parent _ Hinv1 _ _ _ Hg1 Hq).
      assert (Hup : up s1 (id u) = Some q) by (unfold up; rewrite Hg1; exact Hq).
      unfold wouldCreateCircularReference.
      destruct (id_eqb (id u) q) eqn:Eq.
      * exfalso. apply id_eqb_true in Eq. rewrite <- Eq in Hup.
        apply (inv_acyclic _ Hinv1 (id u)). constructor. exact Hup.
      * rewrite (gac_levels_eq s1 Hinv1 (id u) fuel' Hf).
        destruct (existsb _ _) eqn:Ex.
        -- exfalso. apply existsb_child_id in Ex. apply (gac_levels_ids s1 Hinv1) in Ex.
           apply (inv_acyclic _ Hinv1 (id u)).
           apply (t_trans _ _ _ q); [constructor; exact Hup|exact Ex].
        -- rewrite update_state_same by exact Hg1. reflexivity.
    + rewrite update_state_same by exact Hg1. reflexivity.
Qed.

Lemma updateItem_idempotent_witness :
  updateItem 100 (item (nid 3) (Some idA) "Item 3 moved")
    (snd (updateItem 100 (item (nid 3) (Some idA) "Item 3 moved") fixture)) =
  (Ok tt, snd (updateItem 100 (item (nid 3) (Some idA) "Item 3 moved") fixture)).
Proof.
  assert (Hinv : store_inv_ids fixture) by (apply store_inv_idsb_sound; vm_compute; reflexivity).
  apply (proj2 (updateItem_idempotent 100 (item (nid 3) (Some idA) "Item 3 moved") fixture
                  _ eq_refl) Hinv).
  vm_compute. lia.
Defined.
